(** * ziti: SdkCollection and Config

    A shallow embedding of [ziti/collection.go] and [ziti/config.go].

    The collection keeps its contexts in a [cmap.ConcurrentMap[string, Context]];
    it is modelled by a [gmap string Context].  Calls of [Context.Close],
    lines written to the logger and the state of the context factory are the
    effects of the package; they are threaded through every operation in a
    [World] record. *)

From Stdlib Require Import Strings.String Strings.Ascii Strings.Byte Lists.List.
From stdpp Require Import base option list strings gmap.

Open Scope string_scope.
Open Scope list_scope.

(** ** Go values *)

(** An [error] is modelled by the text its [Error()] method returns. *)
Definition error := string.

(** A Go call returning [(A, error)]. *)
Inductive result (A : Type) : Type :=
| Ok (a : A)
| Err (err : error).
Arguments Ok {A} a.
Arguments Err {A} err.

(** A [[]string]: [None] is the nil slice, [Some []] an empty one. *)
Definition slice := option (list string).

Definition elems (s : slice) : list string := default [] s.

(** [append(s, t...)]: with nothing to add Go hands back [s] itself. *)
Definition append (s t : slice) : slice :=
  match elems t with
  | [] => s
  | _ :: _ => Some (elems s ++ elems t)
  end.

(** [strings.Split(s, sep)] for a one-byte separator; the empty string splits
    into one empty segment. *)
Fixpoint Split (s : string) (sep : ascii) : list string :=
  match s with
  | EmptyString => [EmptyString]
  | String c rest =>
      if Ascii.eqb c sep then EmptyString :: Split rest sep
      else match Split rest sep with
           | seg :: segs => String c seg :: segs
           | [] => [String c EmptyString]
           end
  end.

(** The segments put together again with the separator between them
    ([strings.Join]). *)
Fixpoint Join (segs : list string) (sep : ascii) : string :=
  match segs with
  | [] => EmptyString
  | [seg] => seg
  | seg :: rest => seg +:+ String sep (Join rest sep)
  end.

(** The bytes of [s] that are [sep]. *)
Fixpoint countSep (s : string) (sep : ascii) : nat :=
  match s with
  | EmptyString => 0
  | String c rest => (if Ascii.eqb c sep then 1 else 0) + countSep rest sep
  end.

(** ** Contexts *)

(** A live [Context] implementation: [ptr] stands for the identity of the
    instance (interface values holding pointers compare by pointer), [GetId]
    for the string its [GetId()] method reports. *)
Record ContextImpl : Type := mkContext { ptr : nat; GetId : string }.

#[global] Instance ContextImpl_eq_dec : EqDecision ContextImpl.
Proof. solve_decision. Defined.

(** A value of interface type [Context]; [None] is nil. *)
Definition Context := option ContextImpl.

(** Number of [Close()] calls a log records for [h]. *)
Definition closeCalls (h : ContextImpl) (log : list ContextImpl) : nat :=
  length (filter (λ x, x = h) log).

(** ** The concurrent map

    [github.com/orcaman/concurrent-map/v2] is not part of the repository.  Each
    of its operations takes the lock of the key's shard, works on the shard's
    map and releases the lock, so each is one atomic step on the map; [Upsert]
    runs its callback while holding that lock. *)
Module cmap.

Definition UpsertCb (E : Type) : Type := bool → Context → Context → E → Context * E.

Definition Upsert {E : Type} (key : string) (value : Context) (cb : UpsertCb E)
    (m : gmap string Context) (e : E) : gmap string Context * E :=
  let ok := bool_decide (is_Some (m !! key)) in
  let v := default None (m !! key) in
  let '(res, e') := cb ok v value e in
  (<[key := res]> m, e').

Definition Set_ (key : string) (value : Context) (m : gmap string Context)
    : gmap string Context :=
  <[key := value]> m.

Definition Remove (key : string) (m : gmap string Context) : gmap string Context :=
  delete key m.

Definition Get (key : string) (m : gmap string Context) : option Context :=
  m !! key.

(** The entries of the map as one pass over it meets them: each entry once;
    Go fixes no order for a range over a map. *)
Definition Iteration (m : gmap string Context) (items : list (string * Context)) : Prop :=
  items ≡ₚ map_to_list m.

(** [IterCb]: the callback is run on the entries one after the other, under
    the read lock of their shard; [items] is the pass it makes. *)
Definition IterCb {E : Type} (fn : string → Context → E → E)
    (items : list (string * Context)) (e : E) : E :=
  foldl (λ e kv, fn (fst kv) (snd kv) e) e items.

End cmap.

#[local] Set Warnings "-register-all".

(** ** JSON documents

    What [encoding/json] reads from, and writes to, a JSON text. *)
Inductive JSON : Type :=
| JNull
| JBool (b : bool)
| JNumber (literal : string)
| JString (s : string)
| JArray (items : list JSON)
| JObject (members : list (string * JSON)).

(** First error wins, as [decodeState.saveError] has it. *)
Definition saveError (saved new : option error) : option error :=
  match saved with
  | Some _ => saved
  | None => new
  end.

(** The collection: [contexts] and the [ConfigTypes] given to every context
    it creates (named apart from the field of [Config]). *)
Record SdkCollection : Type := mkSdkCollection {
  contexts : gmap string Context;
  SdkCollection_ConfigTypes : slice
}.

(** [NewSdkCollection()] *)
Definition NewSdkCollection : SdkCollection :=
  {| contexts := ∅; SdkCollection_ConfigTypes := None |}.

(** Every entry of the map holds a context, under the identity the context
    reports. *)
Definition keyed (m : gmap string Context) : Prop :=
  ∀ id c, m !! id = Some c → ∃ h, c = Some h ∧ GetId h = id.

(** ** Goroutines

    A goroutine running [Add ctx] is before its [Upsert], between [Upsert] and
    [Set], or has returned. *)
Inductive place : Type := atUpsert | atSet | returned.

#[global] Instance place_eq_dec : EqDecision place.
Proof. solve_decision. Defined.

Record goroutine : Type := mkGoroutine { ctxArg : ContextImpl; at_ : place }.

(** The goroutine has made its [Upsert]. *)
Definition upserted (g : goroutine) : Prop := at_ g ≠ atUpsert.

#[global] Instance upserted_dec (g : goroutine) : Decision (upserted g).
Proof. unfold upserted. apply _. Defined.


(** ** A small environment

    Concrete collaborators on which the operations can be run: an identity
    with the two members the comment of [NewConfigFromFile] shows, three files,
    a reader that knows the texts of these files, and a factory that numbers
    the contexts it makes and names them after the controller address. *)
Module demo.

Record IdentityConfig : Type := mkIdentity { Key : string; Cert : string }.

Definition idZero : IdentityConfig := {| Key := ""; Cert := "" |}.

Definition CredentialsImpl : Type := unit.
Definition Options : Type := unit.
Definition FState : Type := nat.

Definition setMember (i : IdentityConfig) (kv : string * JSON) : IdentityConfig :=
  match kv with
  | ("key", JString s) => {| Key := s; Cert := Cert i |}
  | ("cert", JString s) => {| Key := Key i; Cert := s |}
  | _ => i
  end.

Definition decodeID (v : JSON) (cur : IdentityConfig) : IdentityConfig * option error :=
  match v with
  | JNull => (cur, None)
  | JObject members => (foldl setMember cur members, None)
  | _ => (cur, Some "json: cannot unmarshal into Go struct field Config.id")
  end.

Definition encodeID (i : IdentityConfig) : JSON :=
  JObject [("key", JString (Key i)); ("cert", JString (Cert i))].

Definition lower (c : ascii) : ascii :=
  let n := nat_of_ascii c in
  if (65 <=? n)%nat && (n <=? 90)%nat then ascii_of_nat (n + 32) else c.

Fixpoint lowerString (s : string) : string :=
  match s with
  | EmptyString => EmptyString
  | String c rest => String (lower c) (lowerString rest)
  end.

Definition EqualFold (s t : string) : bool := String.eqb (lowerString s) (lowerString t).

Definition UnmarshalTypeError (v : JSON) (goField : string) : error :=
  "json: cannot unmarshal value into Go struct field " +:+ goField.

(** A quoted JSON string without escapes. *)
Definition q (s : string) : string := String "034" (s +:+ String "034" EmptyString).

Definition goodText : string :=
  "{" +:+ q "ztAPI" +:+ ":" +:+ q "https://ctrl.example:1280/edge/client/v1" +:+ ","
      +:+ q "configTypes" +:+ ":[" +:+ q "intercept.v1" +:+ "],"
      +:+ q "id" +:+ ":{" +:+ q "cert" +:+ ":" +:+ q "CERT" +:+ ","
                          +:+ q "key" +:+ ":" +:+ q "KEY" +:+ "}}".

Definition goodDoc : JSON :=
  JObject [("ztAPI", JString "https://ctrl.example:1280/edge/client/v1");
           ("configTypes", JArray [JString "intercept.v1"]);
           ("id", JObject [("cert", JString "CERT"); ("key", JString "KEY")])].

Definition good2Text : string :=
  "{" +:+ q "ztAPI" +:+ ":" +:+ q "https://other.example/edge/client/v1" +:+ "}".

Definition good2Doc : JSON :=
  JObject [("ztAPI", JString "https://other.example/edge/client/v1")].

Definition badText : string := "{" +:+ q "ztAPI" +:+ ":".

Definition ReadFile (name : string) : result (list byte) :=
  if String.eqb name "good.json" then Ok (list_byte_of_string goodText)
  else if String.eqb name "good2.json" then Ok (list_byte_of_string good2Text)
  else if String.eqb name "bad.json" then Ok (list_byte_of_string badText)
  else Err ("open " +:+ name +:+ ": no such file or directory").

Definition parseJSON (data : list byte) : result JSON :=
  let text := string_of_list_byte data in
  if String.eqb text goodText then Ok goodDoc
  else if String.eqb text good2Text then Ok good2Doc
  else Err "unexpected end of JSON input".

Definition Getenv (name : string) : string :=
  if String.eqb name "ZITI_IDENTITIES"
  then "good.json;;missing.json;bad.json;good2.json"
  else "".

(** The factory: the [n]-th context it makes, named after the controller
    address [ztAPI cfg]; it refuses a configuration without an address and
    leaves [cfg] as it is. *)
Definition NewContextWithOpts {C : Type} (ztAPI : C → string)
    (n : FState) (cfg : C) (options : option Options) : FState * C * result ContextImpl :=
  if String.eqb (ztAPI cfg) "" then (n, cfg, Err "no controller address")
  else (S n, cfg, Ok {| ptr := n; GetId := ztAPI cfg |}).

Definition h1 : ContextImpl := {| ptr := 1; GetId := "identity-a" |}.
Definition h2 : ContextImpl := {| ptr := 2; GetId := "identity-a" |}.
Definition h3 : ContextImpl := {| ptr := 3; GetId := "identity-a" |}.

End demo.

(** ** More files

    The files of the small environment and four more: the texts null, {} and
    [] and an object whose ztAPI member is a number. *)
Module edge.

Definition wrongTypeText : string := "{" +:+ demo.q "ztAPI" +:+ ":5}".

Definition wrongTypeDoc : JSON := JObject [("ztAPI", JNumber "5")].

Definition unknownText : string := "{" +:+ demo.q "controller" +:+ ":true}".

Definition unknownDoc : JSON := JObject [("controller", JBool true)].

Definition ReadFile (name : string) : result (list byte) :=
  if String.eqb name "null.json" then Ok (list_byte_of_string "null")
  else if String.eqb name "empty.json" then Ok (list_byte_of_string "{}")
  else if String.eqb name "array.json" then Ok (list_byte_of_string "[]")
  else if String.eqb name "number.json" then Ok (list_byte_of_string wrongTypeText)
  else if String.eqb name "unknown.json" then Ok (list_byte_of_string unknownText)
  else demo.ReadFile name.

Definition parseJSON (data : list byte) : result JSON :=
  let text := string_of_list_byte data in
  if String.eqb text "null" then Ok JNull
  else if String.eqb text "{}" then Ok (JObject [])
  else if String.eqb text "[]" then Ok (JArray [])
  else if String.eqb text wrongTypeText then Ok wrongTypeDoc
  else if String.eqb text unknownText then Ok unknownDoc
  else demo.parseJSON data.

Definition Getenv (name : string) : string :=
  if String.eqb name "ONLY_SEPARATORS" then ";;" else demo.Getenv name.

End edge.

Section Ziti.

(** External collaborators. *)
Variable IdentityConfig : Type.          (* identity.Config *)
Variable CredentialsImpl : Type.         (* implementations of apis.Credentials *)
Variable Options : Type.                 (* ziti.Options *)
Variable FState : Type.                  (* whatever the context factory depends on *)

(** The effects of the package. *)
Record World : Type := mkWorld {
  coll : SdkCollection;                  (* the collection behind [set] *)
  closed : list ContextImpl;             (* [Close()] calls, oldest first *)
  logged : list string;                  (* lines given to the logger *)
  fstate : FState
}.

Definition withContexts (m : gmap string Context) (cl : list ContextImpl) (w : World) : World :=
  {| coll := {| contexts := m;
                SdkCollection_ConfigTypes := SdkCollection_ConfigTypes (coll w) |};
     closed := cl; logged := logged w; fstate := fstate w |}.

(** The callback [Add] gives to [Upsert]: the log of [Close()] calls is the
    effect it has. *)
Definition closeSuperseded : cmap.UpsertCb (list ContextImpl) :=
  λ exist valueInMap newValue cl,
    if exist && negb (bool_decide (valueInMap = None))
             && negb (bool_decide (valueInMap = newValue))
    then match valueInMap with
         | Some old => (newValue, cl ++ [old])
         | None => (newValue, cl)
         end
    else (newValue, cl).

(** [func (set *SdkCollection) Add(ctx Context)], for a non-nil [ctx]
    (a nil one panics in [ctx.GetId()] before the map is touched). *)
Definition Add (ctx : ContextImpl) (w : World) : World :=
  let '(m1, cl) :=
    cmap.Upsert (GetId ctx) (Some ctx) closeSuperseded (contexts (coll w)) (closed w) in
  let m2 := cmap.Set_ (GetId ctx) (Some ctx) m1 in
  withContexts m2 cl w.

(** [func (set *SdkCollection) RemoveById(id string)] *)
Definition RemoveById (id : string) (w : World) : World :=
  withContexts (cmap.Remove id (contexts (coll w))) (closed w) w.

(** [func (set *SdkCollection) Remove(ctx Context)] *)
Definition Remove (ctx : ContextImpl) (w : World) : World :=
  withContexts (cmap.Remove (GetId ctx) (contexts (coll w))) (closed w) w.

(** Lookup by identity. *)
Definition lookup_ctx (id : string) (w : World) : option Context :=
  cmap.Get id (contexts (coll w)).

(** The contexts a call [Add ctx] closes: the one stored under the identity of
    [ctx], when there is one and it is another instance. *)
Definition superseded (ctx : ContextImpl) (w : World) : list ContextImpl :=
  match lookup_ctx (GetId ctx) w with
  | Some (Some old) => if decide (old = ctx) then [] else [old]
  | _ => []
  end.

(** *** config.go *)

Variable idZero : IdentityConfig.        (* the zero value of identity.Config *)

Record Config : Type := mkConfig {
  ZtAPI : string;                        (* `json:"ztAPI"` *)
  ConfigTypes : slice;                   (* `json:"configTypes"` *)
  ID : IdentityConfig;                   (* `json:"id"` *)
  Credentials : option CredentialsImpl   (* `json:"-"`; an interface, [None] is nil *)
}.

(** [Config{}] *)
Definition zeroConfig : Config :=
  {| ZtAPI := ""; ConfigTypes := None; ID := idZero; Credentials := None |}.

(** [NewConfig(ztApi, idConfig)] *)
Definition NewConfig (ztApi : string) (idConfig : IdentityConfig) : Config :=
  {| ZtAPI := ztApi; ConfigTypes := None; ID := idConfig; Credentials := None |}.

(** [os.ReadFile] and [os.Getenv]. *)
Variable ReadFile : string → result (list byte).
Variable Getenv : string → string.

(** [encoding/json] is not part of the repository.  Reading a JSON text into a
    document, the folding of member names, the text of its type errors and the
    coding of [identity.Config] are taken as they come; what [Unmarshal] does
    with a document for the fields and tags of [Config] is written out. *)
Variable parseJSON : list byte → result JSON.
Variable EqualFold : string → string → bool.
Variable UnmarshalTypeError : JSON → string → error.
Variable decodeID : JSON → IdentityConfig → IdentityConfig * option error.
Variable encodeID : IdentityConfig → JSON.

(** The fields of [Config] that carry a JSON name; [Credentials], tagged
    [json:"-"], is not among them. *)
Inductive field : Type := f_ZtAPI | f_ConfigTypes | f_ID.

Definition fieldNames : list (string * field) :=
  [("ztAPI", f_ZtAPI); ("configTypes", f_ConfigTypes); ("id", f_ID)].

(** The field a member name selects: an exact match first, a match up to case
    folding otherwise. *)
Definition findField (key : string) : option field :=
  match find (λ nf, String.eqb (fst nf) key) fieldNames with
  | Some nf => Some (snd nf)
  | None => snd <$> find (λ nf, EqualFold (fst nf) key) fieldNames
  end.

(** A JSON value read into a [string] that holds [cur]: null has no effect,
    a value of another kind is a type error and leaves [cur]. *)
Definition decodeString (goField : string) (v : JSON) (cur : string) : string * option error :=
  match v with
  | JString s => (s, None)
  | JNull => (cur, None)
  | _ => (cur, Some (UnmarshalTypeError v goField))
  end.

(** The elements of a JSON array read over the elements [cur] of the slice
    that is there (the zero value where it has none). *)
Fixpoint decodeElems (goField : string) (items : list JSON) (cur : list string)
    : list string * option error :=
  match items with
  | [] => ([], None)
  | v :: items' =>
      let '(s, e) := decodeString goField v (hd "" cur) in
      let '(rest, e') := decodeElems goField items' (tl cur) in
      (s :: rest, saveError e e')
  end.

(** A JSON value read into a [[]string]: null makes it nil, an array gives
    a slice of the array's length. *)
Definition decodeSlice (goField : string) (v : JSON) (cur : slice) : slice * option error :=
  match v with
  | JNull => (None, None)
  | JArray items =>
      let '(l, e) := decodeElems goField items (elems cur) in (Some l, e)
  | _ => (cur, Some (UnmarshalTypeError v goField))
  end.

Definition decodeMember (st : Config * option error) (kv : string * JSON)
    : Config * option error :=
  let '(c, err) := st in
  match findField (fst kv) with
  | None => (c, err)
  | Some f_ZtAPI =>
      let '(s, e) := decodeString "Config.ztAPI" (snd kv) (ZtAPI c) in
      ({| ZtAPI := s; ConfigTypes := ConfigTypes c; ID := ID c;
          Credentials := Credentials c |}, saveError err e)
  | Some f_ConfigTypes =>
      let '(l, e) := decodeSlice "Config.configTypes" (snd kv) (ConfigTypes c) in
      ({| ZtAPI := ZtAPI c; ConfigTypes := l; ID := ID c;
          Credentials := Credentials c |}, saveError err e)
  | Some f_ID =>
      let '(i, e) := decodeID (snd kv) (ID c) in
      ({| ZtAPI := ZtAPI c; ConfigTypes := ConfigTypes c; ID := i;
          Credentials := Credentials c |}, saveError err e)
  end.

(** A document read into the [Config] [c]. *)
Definition decodeConfig (d : JSON) (c : Config) : Config * option error :=
  match d with
  | JNull => (c, None)
  | JObject members => foldl decodeMember (c, None) members
  | _ => (c, Some (UnmarshalTypeError d "Config"))
  end.

(** [json.Unmarshal(data, &c)]: a text that is not JSON is refused before
    [c] is touched. *)
Definition Unmarshal (data : list byte) (c : Config) : Config * option error :=
  match parseJSON data with
  | Err err => (c, Some err)
  | Ok d => decodeConfig d c
  end.

(** [func NewConfigFromFile(confFile string)], returning a [Config] or an
    error. *)
Definition NewConfigFromFile (confFile : string) : result Config :=
  match ReadFile confFile with
  | Err _ => Err ("config file (" +:+ confFile +:+ ") is not found ")
  | Ok conf =>
      let c := zeroConfig in
      let '(c, err) := Unmarshal conf c in
      match err with
      | Some err =>
          Err ("failed to load ziti configuration (" +:+ confFile +:+ "): " +:+ err)
      | None => Ok c
      end
  end.

(** Modelled from the spec: the repository has no function that writes a
    [Config] out; the serialised form is the document of section 6,
    [{ endpoint, requiredCapabilities, legacyIdentity }], under the JSON names
    of the struct tags, a nil [ConfigTypes] as null. *)
Definition encodeSlice (s : slice) : JSON :=
  match s with
  | None => JNull
  | Some l => JArray (JString <$> l)
  end.

Definition serialize (c : Config) : JSON :=
  JObject [("ztAPI", JString (ZtAPI c));
           ("configTypes", encodeSlice (ConfigTypes c));
           ("id", encodeID (ID c))].

Definition memberNames (d : JSON) : list string :=
  match d with
  | JObject members => fst <$> members
  | _ => []
  end.

(** *** collection.go: creating contexts *)

(** Modelled from the spec: the package function [NewContextWithOpts] is not
    among the sources; it is the context factory of section 6,
    [create(cfg, options) -> Result<ContextHandle, CreateError>], here with the
    state it may depend on.  It is given [cfg] as a pointer: the [Config] it
    leaves there comes back with its results. *)
Variable NewContextWithOpts :
  FState → Config → option Options → FState * Config * result ContextImpl.

Definition logErrorf (line : string) (w : World) : World :=
  {| coll := coll w; closed := closed w; logged := logged w ++ [line]; fstate := fstate w |}.

Definition withFState (fs : FState) (w : World) : World :=
  {| coll := coll w; closed := closed w; logged := logged w; fstate := fs |}.

(** [func (set *SdkCollection) NewContextWithOpts(cfg *Config, options *Options)].
    [cfg] is a pointer: the [Config] it points to after the call is returned
    next to the results. *)
Definition SdkCollection_NewContextWithOpts (cfg : Config) (options : option Options)
    (w : World) : World * Config * result ContextImpl :=
  let cfg := {| ZtAPI := ZtAPI cfg;
                ConfigTypes := append (ConfigTypes cfg) (SdkCollection_ConfigTypes (coll w));
                ID := ID cfg; Credentials := Credentials cfg |} in
  let '(fs, cfg, r) := NewContextWithOpts (fstate w) cfg options in
  let w := withFState fs w in
  match r with
  | Err err => (w, cfg, Err err)
  | Ok ctx => (Add ctx w, cfg, Ok ctx)
  end.

(** [func (set *SdkCollection) NewContext(cfg *Config)] *)
Definition SdkCollection_NewContext (cfg : Config) (w : World)
    : World * Config * result ContextImpl :=
  SdkCollection_NewContextWithOpts cfg None w.

(** The loop of [NewSdkCollectionFromEnv] over [identityFiles]. *)
Fixpoint rangeIdentityFiles (identityFiles : list string) (w : World) : World :=
  match identityFiles with
  | [] => w
  | identityFile :: rest =>
      if String.eqb identityFile "" then rangeIdentityFiles rest w
      else
        match NewConfigFromFile identityFile with
        | Err _ =>
            rangeIdentityFiles rest
              (logErrorf ("failed to load config from file '" +:+ identityFile +:+ "'") w)
        | Ok cfg =>
            let '(w, _, r) := SdkCollection_NewContext cfg w in
            match r with
            | Err _ =>
                rangeIdentityFiles rest
                  (logErrorf ("failed to create context from '" +:+ identityFile +:+ "'") w)
            | Ok _ => rangeIdentityFiles rest w
            end
        end
  end.

(** [func NewSdkCollectionFromEnv(envVariable string) *SdkCollection]; the
    collection it returns is [coll] of the world it ends in. *)
Definition NewSdkCollectionFromEnv (envVariable : string) (w : World) : World :=
  let collection := NewSdkCollection in
  let envValue := Getenv envVariable in
  let identityFiles := Split envValue ";" in
  rangeIdentityFiles identityFiles
    {| coll := collection; closed := closed w; logged := logged w; fstate := fstate w |}.

(** What the entries of the list come to, in the words of the specification:
    an empty segment is ignored, a source that does not load or a
    configuration the factory refuses is a failure, the others give a
    context. *)
Inductive outcome : Type :=
| Skipped
| LoadFailed
| CreateFailed
| Created (ctx : ContextImpl).

Fixpoint outcomes (sources : list string) (fs : FState) : list (string * outcome) :=
  match sources with
  | [] => []
  | src :: rest =>
      if String.eqb src "" then (src, Skipped) :: outcomes rest fs
      else
        match NewConfigFromFile src with
        | Err _ => (src, LoadFailed) :: outcomes rest fs
        | Ok cfg =>
            let '(fs', _, r) := NewContextWithOpts fs cfg None in
            match r with
            | Err _ => (src, CreateFailed) :: outcomes rest fs'
            | Ok ctx => (src, Created ctx) :: outcomes rest fs'
            end
        end
  end.

Definition created (os : list (string * outcome)) : list ContextImpl :=
  omap (λ so, match snd so with Created ctx => Some ctx | _ => None end) os.

Definition failureLines (os : list (string * outcome)) : list string :=
  omap (λ so, match snd so with
              | LoadFailed => Some ("failed to load config from file '" +:+ fst so +:+ "'")
              | CreateFailed => Some ("failed to create context from '" +:+ fst so +:+ "'")
              | _ => None
              end) os.

(** The map that holds the given contexts, entered in order. *)
Definition registryOf (hs : list ContextImpl) : gmap string Context :=
  foldl (λ m h, <[GetId h := Some h]> m) ∅ hs.

(** *** Goroutines calling [Add]

    [Add] is two operations of the map, [Upsert] and then [Set]; each holds the
    shard's lock for its duration, and other goroutines may run in between.  A
    schedule names the goroutine that takes the next step. *)
Definition step (g : goroutine) (w : World) : goroutine * World :=
  let ctx := ctxArg g in
  match at_ g with
  | atUpsert =>
      let '(m1, cl) :=
        cmap.Upsert (GetId ctx) (Some ctx) closeSuperseded (contexts (coll w)) (closed w) in
      ({| ctxArg := ctx; at_ := atSet |}, withContexts m1 cl w)
  | atSet =>
      ({| ctxArg := ctx; at_ := returned |},
       withContexts (cmap.Set_ (GetId ctx) (Some ctx) (contexts (coll w))) (closed w) w)
  | returned => (g, w)
  end.

Definition schedule1 (st : list goroutine * World) (i : nat) : list goroutine * World :=
  match fst st !! i with
  | Some g => let '(g', w') := step g (snd st) in (<[i := g']> (fst st), w')
  | None => st
  end.

Definition run (schedule : list nat) (st : list goroutine * World) : list goroutine * World :=
  foldl schedule1 st schedule.

(** One goroutine per context, each about to call [Add]. *)
Definition go_Add (hs : list ContextImpl) : list goroutine :=
  (λ h, {| ctxArg := h; at_ := atUpsert |}) <$> hs.

Definition all_returned (gs : list goroutine) : Prop :=
  Forall (λ g, at_ g = returned) gs.

(** What holds between the steps of goroutines that add the contexts [hs],
    all of identity [id], to a collection that had no entry for [id] when the
    log of [Close()] calls was [cl0]: one call for each [Upsert] made but the
    first, each on one of [hs], and in the map the context of a goroutine that
    has made its [Upsert]. *)
Definition race_inv (hs : list ContextImpl) (id : string) (cl0 : list ContextImpl)
    (st : list goroutine * World) : Prop :=
  let gs := fst st in
  let w := snd st in
  let made := length (filter upserted gs) in
  ctxArg <$> gs = hs
  ∧ (∃ extra, closed w = cl0 ++ extra
              ∧ length extra = made - 1
              ∧ ∀ x, x ∈ extra → x ∈ hs)
  ∧ (made = 0 → lookup_ctx id w = None)
  ∧ (0 < made → ∃ g, g ∈ gs ∧ upserted g ∧ lookup_ctx id w = Some (Some (ctxArg g))).

(** *** collection.go: the other operations *)

(** [func (set *SdkCollection) ForAll(f func(ctx Context) bool)].  What the
    visitor does is its effect on a state [E]; what it returns is dropped.
    [items] is the pass [IterCb] makes over [set.contexts]. *)
Definition ForAll {E : Type} (f : Context → E → bool * E)
    (items : list (string * Context)) (e : E) : E :=
  cmap.IterCb (λ key ctx e, let '(_, e') := f ctx e in e') items e.

(** The visitor that notes the contexts it is given and answers [b ctx]. *)
Definition noting (b : Context → bool) : Context → list Context → bool * list Context :=
  λ ctx seen, (b ctx, seen ++ [ctx]).

(** [func (set *SdkCollection) NewContextFromFileWithOpts(file string,
    options *Options)] *)
Definition SdkCollection_NewContextFromFileWithOpts (file : string)
    (options : option Options) (w : World) : World * result ContextImpl :=
  match NewConfigFromFile file with
  | Err err => (w, Err err)
  | Ok cfg =>
      let '(w, _, r) := SdkCollection_NewContextWithOpts cfg options w in (w, r)
  end.

(** [func (set *SdkCollection) NewContextFromFile(file string)] *)
Definition SdkCollection_NewContextFromFile (file : string) (w : World)
    : World * result ContextImpl :=
  SdkCollection_NewContextFromFileWithOpts file None w.

(** [NewContextFromFile] called for one file after the other, the results
    dropped. *)
Definition addFromFiles (files : list string) (w : World) : World :=
  foldl (λ w file, fst (SdkCollection_NewContextFromFile file w)) w files.

(** [Add] called for one context after the other. *)
Definition AddAll (hs : list ContextImpl) (w : World) : World :=
  foldl (λ w h, Add h w) w hs.

(** The world with another log. *)
Definition withLog (l : list string) (w : World) : World :=
  {| coll := coll w; closed := closed w; logged := l; fstate := fstate w |}.

(** JSON values that [Unmarshal] does not take for a [string], for a
    [[]string], for the ztAPI and configTypes members of a [Config]. *)
Definition wrongString (v : JSON) : Prop :=
  match v with
  | JString _ | JNull => False
  | _ => True
  end.

Definition wrongSlice (v : JSON) : Prop :=
  match v with
  | JNull => False
  | JArray items => Exists wrongString items
  | _ => True
  end.

Definition wrongType (kv : string * JSON) : Prop :=
  (fst kv = "ztAPI" ∧ wrongString (snd kv))
  ∨ (fst kv = "configTypes" ∧ wrongSlice (snd kv)).

(** *** Theorems *)

Example Split_keeps_empty_segments : Split "a;;b;" ";" = ["a"; ""; "b"; ""].
Proof. reflexivity. Qed.

Example Split_empty_string : Split "" ";" = [""].
Proof. reflexivity. Qed.

Lemma Split_not_nil s sep : Split s sep ≠ [].
Proof.
  destruct s as [|c rest]; cbn; [done|].
  destruct (Ascii.eqb c sep); [done|]. by destruct (Split rest sep).
Qed.

Lemma closeCalls_app h l1 l2 : closeCalls h (l1 ++ l2) = closeCalls h l1 + closeCalls h l2.
Proof. unfold closeCalls. by rewrite filter_app, length_app. Qed.

Lemma closeCalls_one_eq h : closeCalls h [h] = 1.
Proof. unfold closeCalls. rewrite filter_cons_True by done. done. Qed.

Lemma closeCalls_one_ne h x : x ≠ h → closeCalls h [x] = 0.
Proof. intros. unfold closeCalls. rewrite filter_cons_False by done. done. Qed.

Lemma closeCalls_nil h : closeCalls h [] = 0.
Proof. done. Qed.

Lemma withContexts_id w : withContexts (contexts (coll w)) (closed w) w = w.
Proof. by destruct w as [[m ct] cl lg fs]. Qed.

Lemma closeSuperseded_spec (m : gmap string Context) (ctx : ContextImpl) cl :
  closeSuperseded (bool_decide (is_Some (m !! GetId ctx))) (default None (m !! GetId ctx))
                  (Some ctx) cl
  = (Some ctx,
     cl ++ match m !! GetId ctx with
           | Some (Some old) => if decide (old = ctx) then [] else [old]
           | _ => []
           end).
Proof.
  unfold closeSuperseded.
  destruct (m !! GetId ctx) as [[old|]|] eqn:E; cbn;
    repeat case_bool_decide; repeat case_decide; simplify_eq; cbn;
    rewrite ?app_nil_r; try done.
  all: exfalso; eauto.
Qed.

Lemma Add_contexts ctx w :
  contexts (coll (Add ctx w)) = <[GetId ctx := Some ctx]> (contexts (coll w)).
Proof.
  unfold Add, cmap.Upsert, cmap.Set_. rewrite closeSuperseded_spec. cbn.
  apply insert_insert_eq.
Qed.

Lemma Add_closed ctx w : closed (Add ctx w) = closed w ++ superseded ctx w.
Proof.
  unfold Add, cmap.Upsert, superseded, lookup_ctx, cmap.Get.
  by rewrite closeSuperseded_spec.
Qed.

Lemma Add_logged ctx w : logged (Add ctx w) = logged w.
Proof. unfold Add, cmap.Upsert. by rewrite closeSuperseded_spec. Qed.

Lemma Add_fstate ctx w : fstate (Add ctx w) = fstate w.
Proof. unfold Add, cmap.Upsert. by rewrite closeSuperseded_spec. Qed.

Lemma Add_ConfigTypes ctx w :
  SdkCollection_ConfigTypes (coll (Add ctx w)) = SdkCollection_ConfigTypes (coll w).
Proof. unfold Add, cmap.Upsert. by rewrite closeSuperseded_spec. Qed.

Lemma Add_lookup ctx w : lookup_ctx (GetId ctx) (Add ctx w) = Some (Some ctx).
Proof. unfold lookup_ctx, cmap.Get. rewrite Add_contexts. apply lookup_insert_eq. Qed.

Lemma Add_lookup_ne ctx w id :
  id ≠ GetId ctx → lookup_ctx id (Add ctx w) = lookup_ctx id w.
Proof.
  intros Hne. unfold lookup_ctx, cmap.Get. rewrite Add_contexts.
  by apply lookup_insert_ne.
Qed.

Lemma superseded_not_self ctx w : closeCalls ctx (superseded ctx w) = 0.
Proof.
  unfold superseded. destruct (lookup_ctx _ w) as [[old|]|]; try done.
  destruct (decide (old = ctx)); [done|]. by apply closeCalls_one_ne.
Qed.

Lemma superseded_after_Add h1 h2 w :
  GetId h1 = GetId h2 →
  superseded h2 (Add h1 w) = if decide (h1 = h2) then [] else [h1].
Proof. intros Hid. unfold superseded. by rewrite <- Hid, Add_lookup. Qed.

(** C4. Adding [h1] and then a distinct instance [h2] with the same identity,
    one call after the other, closes [h1] exactly once, does not close [h2]
    and leaves [h2] stored under the identity.  [h2] is not closed unless the
    collection already held [h2] under that identity before the two calls (a
    new collection holds nothing); from an empty slot the two calls close [h1]
    and nothing else. *)
Theorem Add_distinct_closes_first (w : World) (h1 h2 : ContextImpl) :
  h1 ≠ h2 →
  GetId h1 = GetId h2 →
  let w2 := Add h2 (Add h1 w) in
  closeCalls h1 (closed w2) = closeCalls h1 (closed w) + 1
  ∧ (lookup_ctx (GetId h1) w ≠ Some (Some h2) →
     closeCalls h2 (closed w2) = closeCalls h2 (closed w))
  ∧ lookup_ctx (GetId h1) w2 = Some (Some h2)
  ∧ (lookup_ctx (GetId h1) w = None → closed w2 = closed w ++ [h1]).
Proof.
  intros Hne Hid w2. subst w2.
  rewrite !Add_closed, (superseded_after_Add h1 h2) by done.
  rewrite decide_False by done.
  rewrite !closeCalls_app, superseded_not_self, closeCalls_one_eq.
  rewrite (closeCalls_one_ne h2 h1) by done.
  split; [lia|]. split; [|split].
  - intros Hfree.
    assert (closeCalls h2 (superseded h1 w) = 0) as ->; [|lia].
    unfold superseded. destruct (lookup_ctx (GetId h1) w) as [[old|]|] eqn:E; try done.
    destruct (decide (old = h1)); [done|].
    apply closeCalls_one_ne. by intros ->.
  - rewrite Hid. apply Add_lookup.
  - intros Hnone. unfold superseded. rewrite Hnone. by rewrite app_nil_r.
Qed.

(** C5. Adding the same instance twice never closes it: the second call
    closes nothing and changes nothing, and the collection maps the identity
    of [h] to [h]. *)
Theorem Add_same_instance_no_close (w : World) (h : ContextImpl) :
  let w1 := Add h w in
  let w2 := Add h w1 in
  closed w2 = closed w1
  ∧ closeCalls h (closed w2) = closeCalls h (closed w)
  ∧ lookup_ctx (GetId h) w2 = Some (Some h)
  ∧ w2 = w1.
Proof.
  intros w1 w2. subst w1 w2.
  assert (closed (Add h (Add h w)) = closed (Add h w)) as Hcl.
  { rewrite (Add_closed h (Add h w)), superseded_after_Add by done.
    rewrite decide_True by done. apply app_nil_r. }
  repeat split.
  - done.
  - rewrite Hcl, Add_closed, closeCalls_app, superseded_not_self. lia.
  - apply Add_lookup.
  - assert (contexts (coll (Add h (Add h w))) = contexts (coll (Add h w))) as Hm.
    { rewrite !Add_contexts. apply insert_insert_eq. }
    pose proof (Add_logged h (Add h w)) as Hl.
    pose proof (Add_fstate h (Add h w)) as Hf.
    pose proof (Add_ConfigTypes h (Add h w)) as Ht.
    destruct (Add h (Add h w)) as [[m2 t2] c2 l2 f2].
    destruct (Add h w) as [[m1 t1] c1 l1 f1]. cbn in *. by subst.
Qed.

Lemma Remove_RemoveById ctx w : Remove ctx w = RemoveById (GetId ctx) w.
Proof. done. Qed.

Lemma RemoveById_lookup id w : lookup_ctx id (RemoveById id w) = None.
Proof. unfold lookup_ctx, RemoveById, cmap.Get, cmap.Remove. cbn. apply lookup_delete_eq. Qed.

Lemma RemoveById_lookup_ne id id' w :
  id' ≠ id → lookup_ctx id' (RemoveById id w) = lookup_ctx id' w.
Proof.
  intros. unfold lookup_ctx, RemoveById, cmap.Get, cmap.Remove. cbn.
  by apply lookup_delete_ne.
Qed.

Lemma RemoveById_absent id w : lookup_ctx id w = None → RemoveById id w = w.
Proof.
  unfold lookup_ctx, RemoveById, cmap.Get, cmap.Remove. intros Hnone.
  rewrite delete_id by done. apply withContexts_id.
Qed.

(** C9. [Remove] and [RemoveById] delete the entry under the identity and
    call [Close()] on nothing; the other entries stay; without an entry under
    the identity nothing changes; and after [Add h], [Remove h] leaves the
    collection without an entry for [h] and [h] no more closed than before. *)
Theorem Remove_deletes_without_closing (w : World) (h : ContextImpl) :
  Remove h w = RemoveById (GetId h) w
  ∧ lookup_ctx (GetId h) (Remove h w) = None
  ∧ closed (Remove h w) = closed w
  ∧ (∀ id, id ≠ GetId h → lookup_ctx id (Remove h w) = lookup_ctx id w)
  ∧ (lookup_ctx (GetId h) w = None → Remove h w = w)
  ∧ lookup_ctx (GetId h) (Remove h (Add h w)) = None
  ∧ closeCalls h (closed (Remove h (Add h w))) = closeCalls h (closed w).
Proof.
  rewrite !Remove_RemoveById. repeat split.
  - apply RemoveById_lookup.
  - intros id Hne. by apply RemoveById_lookup_ne.
  - apply RemoveById_absent.
  - apply RemoveById_lookup.
  - change (closed (RemoveById (GetId h) (Add h w))) with (closed (Add h w)).
    rewrite Add_closed, closeCalls_app, superseded_not_self. lia.
Qed.

(** C10. [Remove ctx] looks only at the identity of [ctx]: whatever context is
    stored under [GetId ctx], the same instance or another one, its entry is
    deleted and it is not closed. *)
Theorem Remove_keyed_by_identity (w : World) (ctx stored : ContextImpl) :
  lookup_ctx (GetId ctx) w = Some (Some stored) →
  lookup_ctx (GetId ctx) (Remove ctx w) = None
  ∧ closed (Remove ctx w) = closed w
  ∧ closeCalls stored (closed (Remove ctx w)) = closeCalls stored (closed w)
  ∧ contexts (coll (Remove ctx w)) = delete (GetId ctx) (contexts (coll w)).
Proof.
  intros _. repeat split. apply RemoveById_lookup.
Qed.

(** *** config.go *)

Lemma decodeMember_Credentials st kv :
  Credentials (fst (decodeMember st kv)) = Credentials (fst st).
Proof.
  destruct st as [c err]. unfold decodeMember.
  destruct (findField (fst kv)) as [[| |]|]; cbn; try done.
  - by destruct (decodeString _ _ _).
  - by destruct (decodeSlice _ _ _).
  - by destruct (decodeID _ _).
Qed.

Lemma foldl_decodeMember_Credentials members st :
  Credentials (fst (foldl decodeMember st members)) = Credentials (fst st).
Proof.
  revert st. induction members as [|kv members IH]; intros st; [done|].
  cbn. by rewrite IH, decodeMember_Credentials.
Qed.

Lemma decodeConfig_Credentials d c :
  Credentials (fst (decodeConfig d c)) = Credentials c.
Proof.
  destruct d; try done. cbn. by rewrite foldl_decodeMember_Credentials.
Qed.

Lemma Unmarshal_Credentials data c :
  Credentials (fst (Unmarshal data c)) = Credentials c.
Proof.
  unfold Unmarshal. destruct (parseJSON data); [|done].
  apply decodeConfig_Credentials.
Qed.

Lemma NewConfigFromFile_Ok confFile cfg :
  NewConfigFromFile confFile = Ok cfg ↔
  ∃ conf, ReadFile confFile = Ok conf ∧ Unmarshal conf zeroConfig = (cfg, None).
Proof.
  unfold NewConfigFromFile. split.
  - destruct (ReadFile confFile) as [conf|]; [|done].
    destruct (Unmarshal conf zeroConfig) as [c [err|]] eqn:E; [done|].
    intros [= ->]. by exists conf.
  - intros (conf & -> & ->). done.
Qed.

(** C2, as the code has it. A configuration that [NewConfigFromFile] loads is
    what [Unmarshal] made of the zero [Config] from the bytes of the file, and
    its [Credentials] is nil whatever its [ID] holds: loading derives
    nothing from the [ID]. *)
Theorem NewConfigFromFile_leaves_Credentials_nil (confFile : string) (cfg : Config) :
  NewConfigFromFile confFile = Ok cfg →
  Credentials cfg = None
  ∧ ∃ conf, ReadFile confFile = Ok conf ∧ Unmarshal conf zeroConfig = (cfg, None).
Proof.
  intros Hok. apply NewConfigFromFile_Ok in Hok as (conf & Hread & Hun). split.
  - pose proof (Unmarshal_Credentials conf zeroConfig) as H.
    by rewrite Hun in H.
  - by exists conf.
Qed.

(** C7. [NewConfigFromFile] answers with the "is not found" error exactly when
    the file cannot be read, with the "failed to load ziti configuration" error
    exactly when the file is read and [Unmarshal] refuses its bytes, the two
    errors are never the same, and it succeeds exactly when the file is read
    and [Unmarshal] accepts its bytes. *)
Theorem NewConfigFromFile_error_kinds (confFile : string) :
  (NewConfigFromFile confFile = Err ("config file (" +:+ confFile +:+ ") is not found ")
   ↔ ∃ e, ReadFile confFile = Err e)
  ∧ ((∃ e, NewConfigFromFile confFile
           = Err ("failed to load ziti configuration (" +:+ confFile +:+ "): " +:+ e))
     ↔ ∃ conf c e, ReadFile confFile = Ok conf ∧ Unmarshal conf zeroConfig = (c, Some e))
  ∧ (∀ f f' e, "config file (" +:+ f +:+ ") is not found "
               ≠ "failed to load ziti configuration (" +:+ f' +:+ "): " +:+ e)
  ∧ (∀ cfg, NewConfigFromFile confFile = Ok cfg
            ↔ ∃ conf, ReadFile confFile = Ok conf ∧ Unmarshal conf zeroConfig = (cfg, None)).
Proof.
  assert (∀ f f' e, "config file (" +:+ f +:+ ") is not found "
                    ≠ "failed to load ziti configuration (" +:+ f' +:+ "): " +:+ e) as Hdiff.
  { intros f f' e. cbn. discriminate. }
  split; [|split; [|split]].
  - unfold NewConfigFromFile. split.
    + destruct (ReadFile confFile) as [conf|e]; [|by exists e].
      destruct (Unmarshal conf zeroConfig) as [c [err|]]; [|done].
      by intros [=].
    + intros [e ->]. done.
  - unfold NewConfigFromFile. split.
    + intros [e He]. destruct (ReadFile confFile) as [conf|e0].
      * destruct (Unmarshal conf zeroConfig) as [c [err|]] eqn:E; [|done].
        by exists conf, c, err.
      * by injection He.
    + intros (conf & c & e & -> & ->). by exists e.
  - exact Hdiff.
  - apply NewConfigFromFile_Ok.
Qed.

Lemma decodeElems_strings goField l cur :
  decodeElems goField (JString <$> l) cur = (l, None).
Proof.
  revert cur. induction l as [|s l IH]; intros cur; [done|].
  cbn. by rewrite IH.
Qed.

Lemma decodeSlice_encodeSlice goField s cur :
  decodeSlice goField (encodeSlice s) cur = (s, None).
Proof.
  destruct s as [l|]; [|done]. cbn. by rewrite decodeElems_strings.
Qed.

(** C8. Reading the serialised form of [c] into a fresh [Config] succeeds
    (when the [id] member, coded outside the package, decodes) and gives back
    the [ZtAPI] and the [ConfigTypes] of [c], a nil slice as a nil slice; so
    does [Unmarshal] on every text that reads as that document.  The
    serialised form has the members ztAPI, configTypes and id, none for
    [Credentials], and does not depend on [Credentials]. *)
Theorem serialize_roundtrip (c : Config) :
  snd (decodeID (encodeID (ID c)) idZero) = None →
  (∃ c', decodeConfig (serialize c) zeroConfig = (c', None)
         ∧ ZtAPI c' = ZtAPI c
         ∧ ConfigTypes c' = ConfigTypes c
         ∧ Credentials c' = None
         ∧ ∀ data, parseJSON data = Ok (serialize c) →
                   Unmarshal data zeroConfig = (c', None))
  ∧ memberNames (serialize c) = ["ztAPI"; "configTypes"; "id"]
  ∧ ∀ cr, serialize {| ZtAPI := ZtAPI c; ConfigTypes := ConfigTypes c; ID := ID c;
                       Credentials := cr |} = serialize c.
Proof.
  intros Hid. split; [|done].
  destruct (decodeID (encodeID (ID c)) idZero) as [i e] eqn:E.
  cbn in Hid. subst e.
  assert (decodeConfig (serialize c) zeroConfig
          = ({| ZtAPI := ZtAPI c; ConfigTypes := ConfigTypes c; ID := i;
                Credentials := None |}, None)) as Hdec.
  { unfold serialize, decodeConfig. cbn.
    rewrite decodeSlice_encodeSlice. cbn. by rewrite E. }
  eexists. split; [exact Hdec|]. repeat split.
  intros data Hparse. unfold Unmarshal. by rewrite Hparse.
Qed.

(** *** collection.go: creating contexts *)

Lemma append_nil_r s t : elems t = [] → append s t = s.
Proof. unfold append. by intros ->. Qed.

Lemma append_changes s t : elems t ≠ [] → append s t ≠ s.
Proof.
  unfold append. destruct (elems t) as [|x l] eqn:E; [done|]. intros _.
  destruct s as [l0|]; [|done]. cbn. intros [= H].
  apply (f_equal length) in H. rewrite length_app in H. cbn in H. lia.
Qed.

(** C3, as the code has it. [NewContextWithOpts] of the collection makes no
    copy: it appends the collection's [ConfigTypes] to [cfg.ConfigTypes] in
    the caller's own [Config], gives that [Config] to the factory, and after
    the call, whether or not a context was made, the caller's [cfg] is that
    [Config] as the factory left it.  The [Config] given to the factory is
    [cfg] as it was exactly when the collection has no [ConfigTypes];
    otherwise its [ConfigTypes] differs.  The collection's own [ConfigTypes]
    stays. *)
Theorem SdkCollection_NewContextWithOpts_appends_in_place
    (cfg : Config) (options : option Options) (w : World) :
  let merged :=
    {| ZtAPI := ZtAPI cfg;
       ConfigTypes := append (ConfigTypes cfg) (SdkCollection_ConfigTypes (coll w));
       ID := ID cfg; Credentials := Credentials cfg |} in
  let '(w', cfg', r) := SdkCollection_NewContextWithOpts cfg options w in
  NewContextWithOpts (fstate w) merged options = (fstate w', cfg', r)
  ∧ (elems (SdkCollection_ConfigTypes (coll w)) = [] → merged = cfg)
  ∧ (elems (SdkCollection_ConfigTypes (coll w)) ≠ [] → ConfigTypes merged ≠ ConfigTypes cfg)
  ∧ SdkCollection_ConfigTypes (coll w') = SdkCollection_ConfigTypes (coll w).
Proof.
  intros merged. unfold SdkCollection_NewContextWithOpts. fold merged.
  destruct (NewContextWithOpts (fstate w) merged options) as [[fs cfg'] r] eqn:E.
  assert (elems (SdkCollection_ConfigTypes (coll w)) = [] → merged = cfg) as Hsame.
  { intros H. subst merged. rewrite append_nil_r by done. by destruct cfg. }
  assert (elems (SdkCollection_ConfigTypes (coll w)) ≠ [] →
          ConfigTypes merged ≠ ConfigTypes cfg) as Hdiff.
  { intros H. by apply append_changes. }
  destruct r as [ctx|err]; cbn.
  - by rewrite Add_fstate, Add_ConfigTypes.
  - done.
Qed.

Lemma Config_eta cfg :
  {| ZtAPI := ZtAPI cfg; ConfigTypes := ConfigTypes cfg; ID := ID cfg;
     Credentials := Credentials cfg |} = cfg.
Proof. by destruct cfg. Qed.

Lemma rangeIdentityFiles_outcomes identityFiles w :
  SdkCollection_ConfigTypes (coll w) = None →
  let w' := rangeIdentityFiles identityFiles w in
  let os := outcomes identityFiles (fstate w) in
  contexts (coll w')
  = foldl (λ m h, <[GetId h := Some h]> m) (contexts (coll w)) (created os)
  ∧ logged w' = logged w ++ failureLines os
  ∧ fst <$> os = identityFiles.
Proof.
  revert w. induction identityFiles as [|identityFile rest IH]; intros w Hnil.
  { cbn. by rewrite app_nil_r. }
  cbn. destruct (String.eqb identityFile "") eqn:Eempty.
  { destruct (IH w Hnil) as (Hm & Hl & Hs). cbn. by rewrite Hs. }
  destruct (NewConfigFromFile identityFile) as [cfg|err].
  - unfold SdkCollection_NewContext, SdkCollection_NewContextWithOpts.
    rewrite Hnil, append_nil_r, Config_eta by done.
    destruct (NewContextWithOpts (fstate w) cfg None) as [[fs cfg'] [ctx|err]].
    + destruct (IH (Add ctx (withFState fs w))) as (Hm & Hl & Hs).
      { by rewrite Add_ConfigTypes. }
      rewrite Add_fstate, Add_contexts, Add_logged in *. cbn in *.
      by rewrite Hs.
    + destruct (IH (logErrorf ("failed to create context from '" +:+ identityFile +:+ "'")
                              (withFState fs w))) as (Hm & Hl & Hs); [done|].
      cbn in *. rewrite Hs. repeat split; try done.
      by rewrite Hl, <- app_assoc.
  - destruct (IH (logErrorf ("failed to load config from file '" +:+ identityFile +:+ "'") w))
      as (Hm & Hl & Hs); [done|].
    cbn in *. rewrite Hs. repeat split; try done.
    by rewrite Hl, <- app_assoc.
Qed.

Lemma registryOf_snoc hs h : registryOf (hs ++ [h]) = <[GetId h := Some h]> (registryOf hs).
Proof. unfold registryOf. by rewrite foldl_app. Qed.

Lemma registryOf_lookup hs id c :
  NoDup (GetId <$> hs) →
  registryOf hs !! id = Some c ↔ ∃ h, c = Some h ∧ h ∈ hs ∧ GetId h = id.
Proof.
  revert c. induction hs as [|h hs IH] using rev_ind; intros c Hnd.
  { unfold registryOf. cbn. rewrite lookup_empty. split; [done|].
    intros (h & _ & Hin & _). by apply elem_of_nil in Hin. }
  rewrite fmap_app in Hnd. apply NoDup_app in Hnd as (Hnd & Hfresh & _).
  rewrite registryOf_snoc. destruct (decide (GetId h = id)) as [<-|Hne].
  - rewrite lookup_insert_eq. split.
    + intros [= <-]. exists h. split; [done|]. split; [|done].
      apply elem_of_app. right. by apply list_elem_of_singleton.
    + intros (h' & -> & Hin & Hid). apply elem_of_app in Hin as [Hin|Hin].
      * exfalso. apply (Hfresh (GetId h)).
        -- rewrite <- Hid. by apply list_elem_of_fmap_2.
        -- cbn. by apply list_elem_of_singleton.
      * apply list_elem_of_singleton in Hin. by subst.
  - rewrite lookup_insert_ne by done. rewrite IH by done. split.
    + intros (h' & -> & Hin & Hid). exists h'. split; [done|]. split; [|done].
      apply elem_of_app. by left.
    + intros (h' & -> & Hin & Hid). exists h'. split; [done|]. split; [|done].
      apply elem_of_app in Hin as [Hin|Hin]; [done|].
      apply list_elem_of_singleton in Hin. by subst.
Qed.

(** C6. [NewSdkCollectionFromEnv] returns a collection for every value of the
    variable.  It goes through all the segments of the value: an empty segment
    is passed over, a file that does not load and a configuration the factory
    refuses each leave one line in the log and the collection as it was, and
    each context the factory made is entered with [Add].  So the collection
    holds the created contexts, entered in order; it is empty when none was
    created; and when the created contexts have different identities it holds
    exactly these. *)
Theorem NewSdkCollectionFromEnv_collects_successes (envVariable : string) (w : World) :
  let w' := NewSdkCollectionFromEnv envVariable w in
  let os := outcomes (Split (Getenv envVariable) ";") (fstate w) in
  contexts (coll w') = registryOf (created os)
  ∧ logged w' = logged w ++ failureLines os
  ∧ fst <$> os = Split (Getenv envVariable) ";"
  ∧ (created os = [] → contexts (coll w') = ∅)
  ∧ (NoDup (GetId <$> created os) →
     ∀ id c, contexts (coll w') !! id = Some c ↔ ∃ h, c = Some h ∧ h ∈ created os ∧ GetId h = id).
Proof.
  intros w' os.
  destruct (rangeIdentityFiles_outcomes (Split (Getenv envVariable) ";")
              {| coll := NewSdkCollection; closed := closed w; logged := logged w;
                 fstate := fstate w |}) as (Hm & Hl & Hs); [done|].
  cbn in Hm, Hl, Hs. fold os in Hm, Hl, Hs.
  assert (contexts (coll w') = registryOf (created os)) as Hreg by exact Hm.
  split; [done|]. split; [done|]. split; [done|]. split.
  - intros Hnone. by rewrite Hreg, Hnone.
  - intros Hnd id c. rewrite Hreg. by apply registryOf_lookup.
Qed.

(** *** Goroutines calling [Add] *)

Lemma step_atUpsert ctx w :
  step {| ctxArg := ctx; at_ := atUpsert |} w
  = ({| ctxArg := ctx; at_ := atSet |},
     withContexts (<[GetId ctx := Some ctx]> (contexts (coll w)))
                  (closed w ++ superseded ctx w) w).
Proof.
  unfold step, cmap.Upsert, superseded, lookup_ctx, cmap.Get. cbn.
  by rewrite closeSuperseded_spec.
Qed.

Lemma step_atSet ctx w :
  step {| ctxArg := ctx; at_ := atSet |} w
  = ({| ctxArg := ctx; at_ := returned |},
     withContexts (<[GetId ctx := Some ctx]> (contexts (coll w))) (closed w) w).
Proof. done. Qed.

Lemma schedule1_Some gs w i g :
  gs !! i = Some g →
  schedule1 (gs, w) i = (<[i := fst (step g w)]> gs, snd (step g w)).
Proof. unfold schedule1. cbn. intros ->. by destruct (step g w). Qed.

Lemma superseded_withContexts ctx m cl w :
  superseded ctx (withContexts m cl w)
  = match m !! GetId ctx with
    | Some (Some old) => if decide (old = ctx) then [] else [old]
    | _ => []
    end.
Proof. done. Qed.

(** Symbolic execution of one scheduled step of a concrete goroutine list. *)
Ltac sched_step :=
  erewrite schedule1_Some by reflexivity;
  rewrite ?step_atUpsert, ?step_atSet;
  cbn [fst snd insert list_insert].

(** One goroutine running alone takes the two steps of [Add]. *)
Lemma run_alone_is_Add ctx w :
  run [0; 0] (go_Add [ctx], w) = ([{| ctxArg := ctx; at_ := returned |}], Add ctx w).
Proof.
  unfold run, go_Add. cbn [foldl fmap list_fmap].
  do 2 sched_step. f_equal.
  unfold Add, cmap.Upsert, cmap.Set_.
  rewrite closeSuperseded_spec. done.
Qed.

(** C1, on the code. Three goroutines add three instances [h1], [h2], [h3]
    of one identity to a collection with no entry for it.  Under the schedule
    Upsert(h1), Upsert(h2), Set(h1), Upsert(h3), Set(h2), Set(h3) every call
    returns, two [Close()] calls are made, and both are on [h1]: [h2], put out
    of the map by Set(h1) and again by Set(h3), is never closed. *)
Theorem Add_race_closes_one_context_twice (w : World) (h1 h2 h3 : ContextImpl) :
  GetId h2 = GetId h1 → GetId h3 = GetId h1 →
  h1 ≠ h2 → h1 ≠ h3 → h2 ≠ h3 →
  lookup_ctx (GetId h1) w = None →
  let '(gs, w') := run [0; 1; 0; 2; 1; 2] (go_Add [h1; h2; h3], w) in
  all_returned gs
  ∧ closed w' = closed w ++ [h1; h1]
  ∧ closeCalls h1 (closed w') = closeCalls h1 (closed w) + 2
  ∧ closeCalls h2 (closed w') = closeCalls h2 (closed w)
  ∧ lookup_ctx (GetId h1) w' = Some (Some h3).
Proof.
  intros Hid2 Hid3 H12 H13 H23 Hnone.
  unfold run, go_Add. cbn [foldl fmap list_fmap].
  do 6 sched_step.
  rewrite !superseded_withContexts. unfold superseded. rewrite Hnone.
  cbn [withContexts coll contexts closed]. rewrite Hid2, Hid3.
  rewrite !lookup_insert_eq.
  rewrite !decide_False by done.
  rewrite !app_nil_r, <- !app_assoc. cbn [app].
  split; [by repeat constructor|]. split; [done|].
  rewrite !closeCalls_app.
  assert (closeCalls h1 [h1; h1] = 2) as ->.
  { unfold closeCalls. by rewrite !filter_cons_True by done. }
  assert (closeCalls h2 [h1; h1] = 0) as ->.
  { unfold closeCalls. by rewrite !filter_cons_False by done. }
  split; [lia|]. split; [lia|].
  unfold lookup_ctx, cmap.Get. cbn. apply lookup_insert_eq.
Qed.

(** X11. Two goroutines are enough for the map to end with a closed context:
    under Upsert(h1), Upsert(h2), Set(h2), Set(h1) the one call of [Close()] is
    on [h1], and [h1] is what the map holds afterwards; [h2], put out of the
    map by Set(h1), is not closed. *)
Theorem Add_race_keeps_closed_context (w : World) (h1 h2 : ContextImpl) :
  GetId h2 = GetId h1 → h1 ≠ h2 →
  lookup_ctx (GetId h1) w = None →
  let '(gs, w') := run [0; 1; 1; 0] (go_Add [h1; h2], w) in
  all_returned gs
  ∧ closed w' = closed w ++ [h1]
  ∧ lookup_ctx (GetId h1) w' = Some (Some h1).
Proof.
  intros Hid2 H12 Hnone.
  unfold run, go_Add. cbn [foldl fmap list_fmap].
  do 4 sched_step.
  rewrite !superseded_withContexts. unfold superseded. rewrite Hnone.
  cbn [withContexts coll contexts closed]. rewrite Hid2.
  rewrite !lookup_insert_eq.
  rewrite !decide_False by done.
  rewrite !app_nil_r.
  split; [by repeat constructor|]. split; [done|].
  unfold lookup_ctx, cmap.Get. cbn. apply lookup_insert_eq.
Qed.

(** **** What every schedule keeps *)

Lemma made_insert (gs : list goroutine) i g g' :
  gs !! i = Some g →
  length (filter upserted (<[i := g']> gs)) + (if decide (upserted g) then 1 else 0)
  = length (filter upserted gs) + (if decide (upserted g') then 1 else 0).
Proof.
  intros Hg. apply list_elem_of_split_length in Hg as (l1 & l2 & -> & ->).
  rewrite insert_app_r_alt, Nat.sub_diag by lia. cbn [insert list_insert].
  rewrite !filter_app, !filter_cons, !length_app.
  destruct (decide (upserted g)), (decide (upserted g')); cbn [length]; lia.
Qed.

Lemma distinct_args (gs : list goroutine) i g g0 :
  NoDup (ctxArg <$> gs) →
  gs !! i = Some g → g0 ∈ gs → at_ g0 ≠ at_ g → ctxArg g0 ≠ ctxArg g.
Proof.
  intros Hnd Hg Hin Hat Heq.
  apply list_elem_of_lookup in Hin as [j Hj].
  assert (i = j) as ->.
  { apply (NoDup_lookup (ctxArg <$> gs) i j (ctxArg g)); [done| |].
    - by rewrite list_lookup_fmap, Hg.
    - rewrite list_lookup_fmap, Hj. cbn. by rewrite Heq. }
  congruence.
Qed.

Lemma race_inv_step hs id cl0 gs w i :
  NoDup hs → (∀ h, h ∈ hs → GetId h = id) →
  race_inv hs id cl0 (gs, w) → race_inv hs id cl0 (schedule1 (gs, w) i).
Proof.
  intros Hnd Hid Hinv.
  destruct (gs !! i) as [g|] eqn:Hg; [|by unfold schedule1; cbn; rewrite Hg].
  rewrite (schedule1_Some _ _ _ g) by done.
  destruct Hinv as (Hargs & (extra & Hcl & Hlen & Hextra) & Hnone & Hsome).
  cbn [fst snd] in *.
  pose proof (made_insert gs i g) as Hmade.
  assert (ctxArg g ∈ hs) as Hin.
  { rewrite <- Hargs. apply list_elem_of_fmap_2. by eapply list_elem_of_lookup_2. }
  assert (∀ g', ctxArg g' = ctxArg g → ctxArg <$> <[i := g']> gs = hs) as Hargs'.
  { intros g' Hg'. rewrite list_fmap_insert, Hg', <- Hargs.
    apply list_insert_id. by rewrite list_lookup_fmap, Hg. }
  assert (∀ g', g' ∈ <[i := g']> gs) as Hthere.
  { intros g'. apply list_elem_of_lookup. exists i.
    apply list_lookup_insert_eq. by eapply lookup_lt_Some. }
  destruct g as [ctx pl]. cbn [ctxArg] in *. destruct pl.
  - (* Upsert *)
    rewrite step_atUpsert. cbn [fst snd].
    specialize (Hmade {| ctxArg := ctx; at_ := atSet |} Hg).
    rewrite decide_False in Hmade by (by intros H; apply H).
    rewrite decide_True in Hmade by done.
    unfold race_inv. cbn [fst snd]. split; [by apply Hargs'|].
    assert (lookup_ctx id (withContexts (<[GetId ctx := Some ctx]> (contexts (coll w)))
                             (closed w ++ superseded ctx w) w) = Some (Some ctx)) as Hnow.
    { unfold lookup_ctx, cmap.Get. cbn. rewrite (Hid ctx Hin). apply lookup_insert_eq. }
    split; [|split].
    + cbn [closed withContexts]. unfold superseded. rewrite (Hid ctx Hin).
      destruct (length (filter upserted gs)) as [|made] eqn:Emade.
      * rewrite Hnone by done. exists extra. rewrite app_nil_r.
        split; [done|]. split; [lia|done].
      * destruct Hsome as (g0 & Hg0 & Hup & Hl); [lia|]. rewrite Hl.
        rewrite decide_False.
        2:{ apply (distinct_args gs i {| ctxArg := ctx; at_ := atUpsert |} g0);
              [by rewrite Hargs|done|done|done]. }
        exists (extra ++ [ctxArg g0]). rewrite Hcl, <- app_assoc.
        split; [done|]. split; [rewrite length_app; cbn; lia|].
        intros x Hx. apply elem_of_app in Hx as [Hx|Hx]; [by apply Hextra|].
        apply list_elem_of_singleton in Hx as ->.
        rewrite <- Hargs. by apply list_elem_of_fmap_2.
    + lia.
    + intros _. exists {| ctxArg := ctx; at_ := atSet |}.
      split; [apply Hthere|]. split; [done|]. exact Hnow.
  - (* Set *)
    rewrite step_atSet. cbn [fst snd].
    specialize (Hmade {| ctxArg := ctx; at_ := returned |} Hg).
    rewrite !decide_True in Hmade by done.
    assert (0 < length (filter upserted gs)) as Hpos.
    { assert ({| ctxArg := ctx; at_ := atSet |} ∈ filter upserted gs) as Hf.
      { apply list_elem_of_filter. split; [done|]. by eapply list_elem_of_lookup_2. }
      destruct (filter upserted gs); [by apply elem_of_nil in Hf|cbn; lia]. }
    unfold race_inv. cbn [fst snd]. split; [by apply Hargs'|].
    split; [|split].
    + exists extra. cbn [closed withContexts]. split; [done|]. split; [lia|done].
    + lia.
    + intros _. exists {| ctxArg := ctx; at_ := returned |}.
      split; [apply Hthere|]. split; [done|].
      unfold lookup_ctx, cmap.Get. cbn. rewrite (Hid ctx Hin). apply lookup_insert_eq.
  - (* returned *)
    cbn [step at_ fst snd]. rewrite list_insert_id by done.
    unfold race_inv. cbn [fst snd]. split; [done|]. split; [by exists extra|done].
Qed.

Lemma race_inv_run hs id cl0 schedule st :
  NoDup hs → (∀ h, h ∈ hs → GetId h = id) →
  race_inv hs id cl0 st → race_inv hs id cl0 (run schedule st).
Proof.
  intros Hnd Hid. unfold run. revert st.
  induction schedule as [|i schedule IH]; intros [gs w] Hinv; [done|].
  cbn [foldl]. apply IH. by apply race_inv_step.
Qed.

Lemma race_inv_start hs id w :
  lookup_ctx id w = None → race_inv hs id (closed w) (go_Add hs, w).
Proof.
  intros Hnone. unfold race_inv, go_Add. cbn [fst snd].
  assert (filter upserted ((λ h, {| ctxArg := h; at_ := atUpsert |}) <$> hs) = []) as ->.
  { induction hs as [|h hs IH]; [done|]. cbn [fmap list_fmap].
    rewrite filter_cons_False; [done|]. intros H. by apply H. }
  split.
  { rewrite <- list_fmap_compose. by rewrite list_fmap_id. }
  split.
  { exists []. rewrite app_nil_r. split; [done|]. split; [done|].
    intros x Hx. by apply elem_of_nil in Hx. }
  split; [done|]. cbn. lia.
Qed.

(** X10. However the steps of [N] goroutines that add [N] distinct instances of
    one identity are scheduled, once all have returned [N - 1] calls of
    [Close()] have been made, all on contexts among the [N], and the map holds
    one of the [N]; which contexts were closed, and how often each, depends on
    the schedule. *)
Theorem Add_race_makes_N_minus_1_Close_calls
    (hs : list ContextImpl) (id : string) (schedule : list nat) (w : World) :
  NoDup hs → (∀ h, h ∈ hs → GetId h = id) → lookup_ctx id w = None →
  let '(gs, w') := run schedule (go_Add hs, w) in
  all_returned gs →
  (∃ extra, closed w' = closed w ++ extra
            ∧ length extra = length hs - 1
            ∧ ∀ x, x ∈ extra → x ∈ hs)
  ∧ (hs ≠ [] → ∃ h, h ∈ hs ∧ lookup_ctx id w' = Some (Some h)).
Proof.
  intros Hnd Hid Hnone.
  pose proof (race_inv_run hs id (closed w) schedule (go_Add hs, w) Hnd Hid
                (race_inv_start hs id w Hnone)) as Hinv.
  destruct (run schedule (go_Add hs, w)) as [gs w'].
  intros Hall. destruct Hinv as (Hargs & (extra & Hcl & Hlen & Hextra) & _ & Hsome).
  cbn [fst snd] in *.
  assert (filter upserted gs = gs) as Hfilter.
  { clear -Hall. induction Hall as [|g gs Hg _ IH]; [done|].
    rewrite filter_cons_True, IH; [done|]. unfold upserted. by rewrite Hg. }
  rewrite Hfilter in *.
  assert (length gs = length hs) as Hn by (by rewrite <- Hargs, length_fmap).
  split.
  - exists extra. split; [done|]. split; [lia|done].
  - intros Hne. destruct Hsome as (g & Hg & _ & Hl).
    { destruct hs; [done|]. cbn in Hn. lia. }
    exists (ctxArg g). split; [|done]. rewrite <- Hargs. by apply list_elem_of_fmap_2.
Qed.

(** *** The collection between calls *)

Lemma keyed_empty : keyed ∅.
Proof. intros id c H. by rewrite lookup_empty in H. Qed.

Lemma keyed_insert m h : keyed m → keyed (<[GetId h := Some h]> m).
Proof.
  intros Hk id c. destruct (decide (GetId h = id)) as [<-|Hne].
  - rewrite lookup_insert_eq. intros [= <-]. by exists h.
  - rewrite lookup_insert_ne by done. apply Hk.
Qed.

Lemma keyed_delete m id : keyed m → keyed (delete id m).
Proof.
  intros Hk id' c. destruct (decide (id = id')) as [<-|Hne].
  - by rewrite lookup_delete_eq.
  - rewrite lookup_delete_ne by done. apply Hk.
Qed.

Lemma World_eq (w1 w2 : World) :
  contexts (coll w1) = contexts (coll w2) →
  SdkCollection_ConfigTypes (coll w1) = SdkCollection_ConfigTypes (coll w2) →
  closed w1 = closed w2 → logged w1 = logged w2 → fstate w1 = fstate w2 →
  w1 = w2.
Proof.
  destruct w1 as [[m1 t1] c1 l1 f1], w2 as [[m2 t2] c2 l2 f2]. cbn.
  by intros -> -> -> -> ->.
Qed.

(** X1. The operations of the collection keep every context under the identity
    it reports, and never store nil. *)
Theorem collection_stays_keyed (w : World) (ctx : ContextImpl) (id : string) :
  keyed (contexts (coll w)) →
  keyed (contexts (coll (Add ctx w)))
  ∧ keyed (contexts (coll (Remove ctx w)))
  ∧ keyed (contexts (coll (RemoveById id w))).
Proof.
  intros Hk. split; [|split].
  - rewrite Add_contexts. by apply keyed_insert.
  - by apply keyed_delete.
  - by apply keyed_delete.
Qed.

(** X2. One call of [Add] makes at most one call of [Close()], and only on the
    context that was stored under the identity of the one added: a context of
    that identity and another instance. *)
Theorem Add_closes_only_the_superseded (w : World) (ctx : ContextImpl) :
  keyed (contexts (coll w)) →
  ∃ extra, closed (Add ctx w) = closed w ++ extra
           ∧ (length extra ≤ 1)%nat
           ∧ ∀ x, x ∈ extra →
                  lookup_ctx (GetId ctx) w = Some (Some x)
                  ∧ GetId x = GetId ctx ∧ x ≠ ctx.
Proof.
  intros Hk. exists (superseded ctx w). split; [apply Add_closed|].
  unfold superseded.
  destruct (lookup_ctx (GetId ctx) w) as [[old|]|] eqn:E;
    [|by split; [cbn; lia|intros x Hx; apply elem_of_nil in Hx]..].
  destruct (decide (old = ctx)) as [->|Hne].
  { split; [cbn; lia|]. intros x Hx. by apply elem_of_nil in Hx. }
  split; [cbn; lia|]. intros x Hx. apply list_elem_of_singleton in Hx as ->.
  split; [done|]. split; [|done].
  destruct (Hk _ _ E) as (h & [= <-] & Hid). done.
Qed.

(** X3. [Add] touches the entry of one identity: the other entries, the log and
    the collection's [ConfigTypes] stay; into a free slot it closes nothing;
    and adding the instance that is already stored changes nothing at all. *)
Theorem Add_touches_one_identity (w : World) (ctx : ContextImpl) :
  (∀ id, id ≠ GetId ctx → lookup_ctx id (Add ctx w) = lookup_ctx id w)
  ∧ (lookup_ctx (GetId ctx) w = None → closed (Add ctx w) = closed w)
  ∧ (lookup_ctx (GetId ctx) w = Some (Some ctx) → Add ctx w = w)
  ∧ logged (Add ctx w) = logged w
  ∧ SdkCollection_ConfigTypes (coll (Add ctx w)) = SdkCollection_ConfigTypes (coll w).
Proof.
  split; [|split; [|split; [|split]]].
  - intros id Hne. by apply Add_lookup_ne.
  - intros Hnone. rewrite Add_closed. unfold superseded. rewrite Hnone. apply app_nil_r.
  - intros Hsame. apply World_eq.
    + rewrite Add_contexts. by apply insert_id.
    + apply Add_ConfigTypes.
    + rewrite Add_closed. unfold superseded. rewrite Hsame.
      rewrite decide_True by done. apply app_nil_r.
    + apply Add_logged.
    + apply Add_fstate.
  - apply Add_logged.
  - apply Add_ConfigTypes.
Qed.

(** X4. [Remove] undoes an [Add] into a free slot: the collection and the log of
    [Close()] calls are as before the two calls. *)
Theorem Remove_undoes_Add (w : World) (h : ContextImpl) :
  lookup_ctx (GetId h) w = None → Remove h (Add h w) = w.
Proof.
  intros Hnone. apply World_eq; cbn.
  - unfold cmap.Remove. rewrite Add_contexts. by apply delete_insert_id.
  - apply Add_ConfigTypes.
  - rewrite Add_closed. unfold superseded. rewrite Hnone. apply app_nil_r.
  - apply Add_logged.
  - apply Add_fstate.
Qed.

(** X5. [Add] after [Remove] of the same identity closes nothing, whatever was
    stored: the two calls put [h] in the place of the stored context, as
    [Add] alone does, but without the call of [Close()]. *)
Theorem Add_after_Remove_closes_nothing (w : World) (h : ContextImpl) :
  closed (Add h (Remove h w)) = closed w
  ∧ contexts (coll (Add h (Remove h w))) = contexts (coll (Add h w))
  ∧ lookup_ctx (GetId h) (Add h (Remove h w)) = Some (Some h).
Proof.
  split; [|split].
  - rewrite Add_closed. unfold superseded.
    rewrite Remove_RemoveById, RemoveById_lookup. apply app_nil_r.
  - rewrite !Add_contexts. cbn. unfold cmap.Remove. apply insert_delete_eq.
  - apply Add_lookup.
Qed.

Lemma AddAll_snoc hs h w : AddAll (hs ++ [h]) w = Add h (AddAll hs w).
Proof. unfold AddAll. by rewrite foldl_snoc. Qed.

(** X6. Contexts of one identity added one after the other to a collection with
    no entry for it: every one but the last is closed, once, in the order
    they were added, and the last is the one stored. *)
Theorem AddAll_closes_all_but_last
    (hs : list ContextImpl) (h : ContextImpl) (id : string) (w : World) :
  NoDup (hs ++ [h]) →
  (∀ x, x ∈ hs ++ [h] → GetId x = id) →
  lookup_ctx id w = None →
  closed (AddAll (hs ++ [h]) w) = closed w ++ hs
  ∧ lookup_ctx id (AddAll (hs ++ [h]) w) = Some (Some h).
Proof.
  revert h. induction hs as [|old hs IH] using rev_ind; intros h Hnd Hid Hnone.
  - assert (GetId h = id) as Hh by (apply Hid; by apply list_elem_of_singleton).
    cbn. fold (AddAll [] w). unfold AddAll. cbn. split.
    + rewrite Add_closed. unfold superseded. rewrite Hh, Hnone. done.
    + rewrite <- Hh. apply Add_lookup.
  - assert (GetId h = id) as Hh.
    { apply Hid. apply elem_of_app. right. by apply list_elem_of_singleton. }
    apply NoDup_app in Hnd as (Hnd & Hfresh & _).
    destruct (IH old Hnd) as (Hcl & Hl); [|done|].
    { intros x Hx. apply Hid. apply elem_of_app. by left. }
    rewrite AddAll_snoc. split.
    + rewrite Add_closed, Hcl. unfold superseded. rewrite Hh, Hl.
      rewrite decide_False; [by rewrite <- app_assoc|].
      intros ->. apply (Hfresh h).
      * apply elem_of_app. right. by apply list_elem_of_singleton.
      * by apply list_elem_of_singleton.
    + rewrite <- Hh. apply Add_lookup.
Qed.

(** *** Goroutines: schedules in general *)




Lemma schedule1_effect gs w i :
  let '(gs', w') := schedule1 (gs, w) i in
  ctxArg <$> gs' = ctxArg <$> gs
  ∧ logged w' = logged w
  ∧ (contexts (coll w') = contexts (coll w)
     ∨ ∃ g, g ∈ gs
            ∧ contexts (coll w')
              = <[GetId (ctxArg g) := Some (ctxArg g)]> (contexts (coll w))).
Proof.
  destruct (gs !! i) as [g|] eqn:Hg.
  2:{ unfold schedule1. cbn. rewrite Hg. auto. }
  rewrite (schedule1_Some _ _ _ g) by done.
  assert (∀ g', ctxArg g' = ctxArg g → ctxArg <$> <[i := g']> gs = ctxArg <$> gs) as Hargs.
  { intros g' Hg'. rewrite list_fmap_insert, Hg'.
    apply list_insert_id. by rewrite list_lookup_fmap, Hg. }
  assert (g ∈ gs) as Hin by (by eapply list_elem_of_lookup_2).
  destruct g as [ctx pl]. destruct pl.
  - rewrite step_atUpsert. cbn [fst snd]. split; [by apply Hargs|]. split; [done|].
    right. by exists {| ctxArg := ctx; at_ := atUpsert |}.
  - rewrite step_atSet. cbn [fst snd]. split; [by apply Hargs|]. split; [done|].
    right. by exists {| ctxArg := ctx; at_ := atSet |}.
  - cbn [step at_ fst snd]. split; [by apply Hargs|]. auto.
Qed.

(** X9. Whatever the schedule of goroutines calling [Add], the map keeps every
    context under the identity it reports, the entries of identities that
    no goroutine adds are untouched, and nothing is logged. *)
Theorem run_keeps_keyed (schedule : list nat) (gs : list goroutine) (w : World) :
  keyed (contexts (coll w)) →
  let '(gs', w') := run schedule (gs, w) in
  keyed (contexts (coll w'))
  ∧ (∀ id, (∀ g, g ∈ gs → GetId (ctxArg g) ≠ id) → lookup_ctx id w' = lookup_ctx id w)
  ∧ logged w' = logged w
  ∧ ctxArg <$> gs' = ctxArg <$> gs.
Proof.
  unfold run. revert gs w.
  induction schedule as [|i schedule IH]; intros gs w Hk; [done|].
  cbn [foldl]. pose proof (schedule1_effect gs w i) as Hstep.
  destruct (schedule1 (gs, w) i) as [gs1 w1].
  destruct Hstep as (Hargs & Hlog & Hmap).
  assert (keyed (contexts (coll w1))) as Hk1.
  { destruct Hmap as [->|(g & _ & ->)]; [done|]. by apply keyed_insert. }
  specialize (IH gs1 w1 Hk1).
  destruct (foldl schedule1 (gs1, w1) schedule) as [gs' w'].
  destruct IH as (Hk' & Hframe & Hlog' & Hargs').
  split; [done|]. split; [|split; [congruence|congruence]].
  intros id Hother. rewrite Hframe.
  - unfold lookup_ctx, cmap.Get. destruct Hmap as [->|(g & Hg & ->)]; [done|].
    apply lookup_insert_ne. by apply Hother.
  - intros g Hg. apply (list_elem_of_fmap_2 ctxArg) in Hg.
    rewrite Hargs in Hg. apply list_elem_of_fmap in Hg as (g0 & -> & Hg0).
    by apply Hother.
Qed.

(** *** ForAll *)

Lemma ForAll_cons {E : Type} (f : Context → E → bool * E) kv items e :
  ForAll f (kv :: items) e = ForAll f items (snd (f (snd kv) e)).
Proof. unfold ForAll, cmap.IterCb. cbn. by destruct (f (snd kv) e). Qed.

Lemma ForAll_noting b items seen :
  ForAll (noting b) items seen = seen ++ (snd <$> items).
Proof.
  revert seen. induction items as [|kv items IH]; intros seen.
  - by rewrite app_nil_r.
  - rewrite ForAll_cons, IH. cbn. by rewrite <- app_assoc.
Qed.

Lemma elem_of_values (m : gmap string Context) c :
  c ∈ snd <$> map_to_list m ↔ ∃ id, m !! id = Some c.
Proof.
  rewrite list_elem_of_fmap. split.
  - intros ([id c'] & -> & Hin). exists id. by apply elem_of_map_to_list.
  - intros [id Hid]. exists (id, c). split; [done|]. by apply elem_of_map_to_list.
Qed.

(** X12. [ForAll] gives the visitor every stored context, each once, whatever the
    visitor answers: the contexts it is given are those of the map, as many
    as the map has entries, and (contexts being stored under their own
    identities) none comes twice. *)
Theorem ForAll_visits_each_once
    (m : gmap string Context) (items : list (string * Context)) (b : Context → bool) :
  cmap.Iteration m items →
  let visited := ForAll (noting b) items [] in
  visited ≡ₚ snd <$> map_to_list m
  ∧ length visited = size m
  ∧ (∀ c, c ∈ visited ↔ ∃ id, m !! id = Some c)
  ∧ (keyed m → NoDup visited).
Proof.
  intros Hit visited. unfold cmap.Iteration in Hit.
  assert (visited ≡ₚ snd <$> map_to_list m) as Hperm.
  { subst visited. rewrite ForAll_noting. cbn. by rewrite Hit. }
  split; [done|]. split; [|split].
  - by rewrite Hperm, length_fmap, length_map_to_list.
  - intros c. rewrite Hperm. apply elem_of_values.
  - intros Hk. rewrite Hperm. apply NoDup_fmap_2_strong.
    + intros [id1 c1] [id2 c2] H1 H2. cbn. intros <-.
      apply elem_of_map_to_list in H1, H2.
      destruct (Hk _ _ H1) as (h1 & -> & <-).
      destruct (Hk _ _ H2) as (h2 & [= <-] & <-). done.
    + apply NoDup_map_to_list.
Qed.

Lemma ForAll_Permutation {E : Type} (f : Context → E → bool * E) items1 items2 :
  (∀ c1 c2 e, snd (f c1 (snd (f c2 e))) = snd (f c2 (snd (f c1 e)))) →
  items1 ≡ₚ items2 → ∀ e, ForAll f items1 e = ForAll f items2 e.
Proof.
  intros Hcomm Hperm. induction Hperm as [|kv l1 l2 _ IH|kv1 kv2 l|l1 l2 l3 _ IH1 _ IH2];
    intros e.
  - done.
  - by rewrite !ForAll_cons, IH.
  - by rewrite !ForAll_cons, Hcomm.
  - by rewrite IH1, IH2.
Qed.

(** X13. For a visitor whose effects on two contexts can be made in either order,
    what [ForAll] leaves does not depend on the order in which the map is
    gone through. *)
Theorem ForAll_order_irrelevant {E : Type} (f : Context → E → bool * E)
    (m : gmap string Context) (items1 items2 : list (string * Context)) (e : E) :
  (∀ c1 c2 e, snd (f c1 (snd (f c2 e))) = snd (f c2 (snd (f c1 e)))) →
  cmap.Iteration m items1 → cmap.Iteration m items2 →
  ForAll f items1 e = ForAll f items2 e.
Proof.
  unfold cmap.Iteration. intros Hcomm H1 H2.
  apply ForAll_Permutation; [done|]. by rewrite H1, H2.
Qed.

(** X14. After [Add h], [ForAll] gives the visitor [h] and no other context of
    the identity of [h]; after [Remove h] it gives it no context of that
    identity. *)
Theorem ForAll_after_Add_and_Remove (w : World) (h : ContextImpl) (b : Context → bool) :
  keyed (contexts (coll w)) →
  (∀ items, cmap.Iteration (contexts (coll (Add h w))) items →
            Some h ∈ ForAll (noting b) items []
            ∧ ∀ h', Some h' ∈ ForAll (noting b) items [] → GetId h' = GetId h → h' = h)
  ∧ (∀ items, cmap.Iteration (contexts (coll (Remove h w))) items →
              ∀ h', Some h' ∈ ForAll (noting b) items [] → GetId h' ≠ GetId h).
Proof.
  intros Hk.
  assert (∀ items c m, items ≡ₚ map_to_list m →
                 c ∈ ForAll (noting b) items [] ↔ ∃ id, m !! id = Some c) as Hvisited.
  { intros items c m Hit. rewrite ForAll_noting. cbn [app]. rewrite Hit.
    apply elem_of_values. }
  split; intros items Hit; unfold cmap.Iteration in Hit.
  - split.
    + apply (Hvisited _ _ _ Hit). exists (GetId h). rewrite Add_contexts.
      apply lookup_insert_eq.
    + intros h' Hin Hid. apply (Hvisited _ _ _ Hit) in Hin as [id Hl].
      assert (keyed (contexts (coll (Add h w)))) as Hk'.
      { rewrite Add_contexts. by apply keyed_insert. }
      destruct (Hk' _ _ Hl) as (h0 & [= <-] & <-).
      rewrite Add_contexts, Hid, lookup_insert_eq in Hl. congruence.
  - intros h' Hin Hid. apply (Hvisited _ _ _ Hit) in Hin as [id Hl].
    assert (keyed (contexts (coll (Remove h w)))) as Hk' by (by apply keyed_delete).
    destruct (Hk' _ _ Hl) as (h0 & [= <-] & <-).
    cbn in Hl. unfold cmap.Remove in Hl. rewrite Hid in Hl.
    by rewrite lookup_delete_eq in Hl.
Qed.

(** *** Creating contexts: what is left behind *)

Lemma superseded_withFState ctx fs w : superseded ctx (withFState fs w) = superseded ctx w.
Proof. done. Qed.

Lemma SdkCollection_NewContextWithOpts_cases cfg options w :
  let '(w', _, r) := SdkCollection_NewContextWithOpts cfg options w in
  logged w' = logged w
  ∧ SdkCollection_ConfigTypes (coll w') = SdkCollection_ConfigTypes (coll w)
  ∧ match r with
    | Err _ => coll w' = coll w ∧ closed w' = closed w
    | Ok ctx =>
        contexts (coll w') = <[GetId ctx := Some ctx]> (contexts (coll w))
        ∧ closed w' = closed w ++ superseded ctx w
    end.
Proof.
  unfold SdkCollection_NewContextWithOpts.
  destruct (NewContextWithOpts _ _ _) as [[fs cfg'] [ctx|err]].
  - rewrite Add_logged, Add_ConfigTypes, Add_contexts, Add_closed. done.
  - done.
Qed.

(** X15. [NewContextWithOpts] of the collection logs nothing.  When the factory
    fails, the collection and the log of [Close()] calls are as they were.
    When it makes a context, the context is stored under its identity, the
    context stored there before is closed if it is another instance, and the
    other entries stay.  Contexts stay stored under their own identities. *)
Theorem SdkCollection_NewContextWithOpts_outcome
    (cfg : Config) (options : option Options) (w : World) :
  let '(w', _, r) := SdkCollection_NewContextWithOpts cfg options w in
  logged w' = logged w
  ∧ match r with
    | Err _ => coll w' = coll w ∧ closed w' = closed w
    | Ok ctx =>
        lookup_ctx (GetId ctx) w' = Some (Some ctx)
        ∧ closed w' = closed w ++ superseded ctx w
        ∧ ∀ id, id ≠ GetId ctx → lookup_ctx id w' = lookup_ctx id w
    end
  ∧ (keyed (contexts (coll w)) → keyed (contexts (coll w'))).
Proof.
  pose proof (SdkCollection_NewContextWithOpts_cases cfg options w) as H.
  destruct (SdkCollection_NewContextWithOpts cfg options w) as [[w' cfg'] r].
  destruct H as (Hlog & _ & Hr). split; [done|].
  destruct r as [ctx|err].
  - destruct Hr as (Hm & Hcl). unfold lookup_ctx, cmap.Get. rewrite Hm.
    split; [|by apply keyed_insert]. split; [apply lookup_insert_eq|].
    split; [done|]. intros id Hne. by apply lookup_insert_ne.
  - destruct Hr as (Hcoll & Hcl). rewrite Hcoll. done.
Qed.

(** X16. [NewContextFromFileWithOpts] logs nothing.  When the file does not load,
    the error of the loader comes back and nothing has happened: the factory
    was not called.  On every failure the collection and the log of
    [Close()] calls are as they were; on success the file had loaded and the
    context is stored under its identity, in the place of the one stored
    there before, which is closed if it is another instance. *)
Theorem SdkCollection_NewContextFromFileWithOpts_outcome
    (file : string) (options : option Options) (w : World) :
  let '(w', r) := SdkCollection_NewContextFromFileWithOpts file options w in
  logged w' = logged w
  ∧ (∀ err, NewConfigFromFile file = Err err → w' = w ∧ r = Err err)
  ∧ match r with
    | Err _ => coll w' = coll w ∧ closed w' = closed w
    | Ok ctx =>
        (∃ cfg, NewConfigFromFile file = Ok cfg)
        ∧ lookup_ctx (GetId ctx) w' = Some (Some ctx)
        ∧ closed w' = closed w ++ superseded ctx w
        ∧ ∀ id, id ≠ GetId ctx → lookup_ctx id w' = lookup_ctx id w
    end.
Proof.
  unfold SdkCollection_NewContextFromFileWithOpts.
  destruct (NewConfigFromFile file) as [cfg|err0].
  - pose proof (SdkCollection_NewContextWithOpts_cases cfg options w) as H.
    destruct (SdkCollection_NewContextWithOpts cfg options w) as [[w' cfg'] r].
    destruct H as (Hlog & _ & Hr). split; [done|]. split; [done|].
    destruct r as [ctx|err]; [|done].
    destruct Hr as (Hm & Hcl). unfold lookup_ctx, cmap.Get. rewrite Hm.
    split; [by exists cfg|]. split; [apply lookup_insert_eq|].
    split; [done|]. intros id Hne. by apply lookup_insert_ne.
  - split; [done|]. split; [|done]. by intros err [= ->].
Qed.

Lemma elems_append s t : elems (append s t) = elems s ++ elems t.
Proof.
  unfold append. destruct (elems t) as [|x l] eqn:E; [by rewrite app_nil_r|done].
Qed.

(** X17. With a factory that leaves [cfg.ConfigTypes] as it finds it, the [Config]
    a caller passes comes back with the collection's config types after its
    own, in order and with repetitions; passed again, it gets them a second
    time. *)
Theorem SdkCollection_NewContextWithOpts_accumulates
    (cfg : Config) (options1 options2 : option Options) (w : World) :
  (∀ fs c o, ConfigTypes (snd (fst (NewContextWithOpts fs c o))) = ConfigTypes c) →
  let '(w1, cfg1, _) := SdkCollection_NewContextWithOpts cfg options1 w in
  let '(_, cfg2, _) := SdkCollection_NewContextWithOpts cfg1 options2 w1 in
  elems (ConfigTypes cfg1)
  = elems (ConfigTypes cfg) ++ elems (SdkCollection_ConfigTypes (coll w))
  ∧ elems (ConfigTypes cfg2)
    = elems (ConfigTypes cfg) ++ elems (SdkCollection_ConfigTypes (coll w))
                              ++ elems (SdkCollection_ConfigTypes (coll w)).
Proof.
  intros Hleaves.
  assert (∀ c o w0, let '(w', c', _) := SdkCollection_NewContextWithOpts c o w0 in
            elems (ConfigTypes c')
            = elems (ConfigTypes c) ++ elems (SdkCollection_ConfigTypes (coll w0))
            ∧ SdkCollection_ConfigTypes (coll w')
              = SdkCollection_ConfigTypes (coll w0)) as Hone.
  { intros c o w0. unfold SdkCollection_NewContextWithOpts.
    match goal with |- context [NewContextWithOpts ?fs ?c0 ?o0] =>
      pose proof (Hleaves fs c0 o0) as Hl;
      destruct (NewContextWithOpts fs c0 o0) as [[fs' c'] r] end.
    cbn in Hl. destruct r; cbn; rewrite Hl, elems_append;
      [by rewrite Add_ConfigTypes|done]. }
  pose proof (Hone cfg options1 w) as H1.
  destruct (SdkCollection_NewContextWithOpts cfg options1 w) as [[w1 cfg1] r1].
  pose proof (Hone cfg1 options2 w1) as H2.
  destruct (SdkCollection_NewContextWithOpts cfg1 options2 w1) as [[w2 cfg2] r2].
  destruct H1 as (H1 & Ht), H2 as (H2 & _).
  split; [done|]. by rewrite H2, H1, Ht, <- app_assoc.
Qed.

(** *** Adding several contexts *)

Lemma AddAll_cons h hs w : AddAll (h :: hs) w = AddAll hs (Add h w).
Proof. done. Qed.

Lemma AddAll_contexts hs w :
  contexts (coll (AddAll hs w))
  = foldl (λ m h, <[GetId h := Some h]> m) (contexts (coll w)) hs.
Proof.
  revert w. induction hs as [|h hs IH]; intros w; [done|].
  rewrite AddAll_cons, IH, Add_contexts. done.
Qed.

Lemma AddAll_keyed hs w : keyed (contexts (coll w)) → keyed (contexts (coll (AddAll hs w))).
Proof.
  revert w. induction hs as [|h hs IH]; intros w Hk; [done|].
  rewrite AddAll_cons. apply IH. rewrite Add_contexts. by apply keyed_insert.
Qed.

Lemma AddAll_closed_members hs w :
  ∃ extra, closed (AddAll hs w) = closed w ++ extra
           ∧ ∀ x, x ∈ extra → x ∈ hs ∨ ∃ id, lookup_ctx id w = Some (Some x).
Proof.
  revert w. induction hs as [|h hs IH]; intros w.
  { exists []. rewrite app_nil_r. split; [done|]. intros x Hx. by apply elem_of_nil in Hx. }
  rewrite AddAll_cons. destruct (IH (Add h w)) as (extra & Hcl & Hin).
  exists (superseded h w ++ extra). rewrite Hcl, Add_closed, <- app_assoc.
  split; [done|]. intros x Hx. apply elem_of_app in Hx as [Hx|Hx].
  - right. exists (GetId h). unfold superseded in Hx.
    destruct (lookup_ctx (GetId h) w) as [[old|]|]; try by apply elem_of_nil in Hx.
    destruct (decide (old = h)); [by apply elem_of_nil in Hx|].
    by apply list_elem_of_singleton in Hx as ->.
  - destruct (Hin x Hx) as [Hhs|[id Hid]].
    + left. by apply elem_of_cons; right.
    + destruct (decide (id = GetId h)) as [->|Hne].
      * rewrite Add_lookup in Hid. injection Hid as <-. left. by apply elem_of_cons; left.
      * rewrite Add_lookup_ne in Hid by done. right. by exists id.
Qed.

(** X7. Contexts of pairwise different identities, added one after the other to
    a collection in which none of these identities is in use: no call of
    [Close()] is made, and each of them is stored under its identity. *)
Theorem AddAll_distinct_closes_nothing (hs : list ContextImpl) (w : World) :
  NoDup (GetId <$> hs) →
  (∀ h, h ∈ hs → lookup_ctx (GetId h) w = None) →
  closed (AddAll hs w) = closed w
  ∧ ∀ h, h ∈ hs → lookup_ctx (GetId h) (AddAll hs w) = Some (Some h).
Proof.
  revert w. induction hs as [|h hs IH]; intros w Hnd Hfree.
  { split; [done|]. intros h Hh. by apply elem_of_nil in Hh. }
  cbn [fmap list_fmap] in Hnd. apply NoDup_cons in Hnd as (Hh & Hnd).
  rewrite AddAll_cons. destruct (IH (Add h w) Hnd) as (Hcl & Hstored).
  { intros h' Hh'. rewrite Add_lookup_ne.
    - apply Hfree. by apply elem_of_cons; right.
    - intros Heq. apply Hh. rewrite <- Heq. by apply list_elem_of_fmap_2. }
  split.
  - rewrite Hcl, Add_closed. unfold superseded.
    rewrite Hfree by (by apply elem_of_cons; left). apply app_nil_r.
  - intros h' Hh'. apply elem_of_cons in Hh' as [->|Hh']; [|by apply Hstored].
    unfold lookup_ctx, cmap.Get. rewrite AddAll_contexts, Add_contexts.
    clear -Hh. revert Hh. generalize (contexts (coll w)).
    induction hs as [|x hs IH]; intros m Hh; cbn.
    + apply lookup_insert_eq.
    + rewrite insert_insert_ne.
      * apply IH. intros Hin. apply Hh. cbn. by apply elem_of_cons; right.
      * intros Heq. apply Hh. cbn. rewrite Heq. by apply elem_of_cons; left.
Qed.

Lemma AddAll_coll_closed hs w1 w2 :
  coll w1 = coll w2 → closed w1 = closed w2 →
  coll (AddAll hs w1) = coll (AddAll hs w2) ∧ closed (AddAll hs w1) = closed (AddAll hs w2).
Proof.
  revert w1 w2. induction hs as [|h hs IH]; intros w1 w2 Hc Hcl; [done|].
  rewrite !AddAll_cons. apply IH.
  - pose proof (Add_contexts h w1) as H1. pose proof (Add_contexts h w2) as H2.
    pose proof (Add_ConfigTypes h w1) as T1. pose proof (Add_ConfigTypes h w2) as T2.
    destruct (coll (Add h w1)) as [m1 t1], (coll (Add h w2)) as [m2 t2].
    cbn in *. rewrite H1, H2, T1, T2, Hc. done.
  - rewrite !Add_closed. unfold superseded, lookup_ctx. by rewrite Hc, Hcl.
Qed.

(** *** NewSdkCollectionFromEnv: more *)

Lemma rangeIdentityFiles_AddAll identityFiles w :
  SdkCollection_ConfigTypes (coll w) = None →
  let w' := rangeIdentityFiles identityFiles w in
  let hs := created (outcomes identityFiles (fstate w)) in
  coll w' = coll (AddAll hs w) ∧ closed w' = closed (AddAll hs w).
Proof.
  revert w. induction identityFiles as [|identityFile rest IH]; intros w Hnil; [done|].
  cbn -[AddAll]. destruct (String.eqb identityFile "") eqn:Eempty; [by apply IH|].
  destruct (NewConfigFromFile identityFile) as [cfg|err].
  - unfold SdkCollection_NewContextWithOpts, SdkCollection_NewContext,
      SdkCollection_NewContextWithOpts.
    rewrite Hnil, append_nil_r, Config_eta by done.
    destruct (NewContextWithOpts (fstate w) cfg None) as [[fs cfg'] [ctx|err]].
    + destruct (IH (Add ctx (withFState fs w))) as (Hc & Hcl).
      { by rewrite Add_ConfigTypes. }
      rewrite Add_fstate in Hc, Hcl. cbn [fstate withFState] in Hc, Hcl.
      cbn [created omap list_omap snd]. fold (created (outcomes rest fs)).
      rewrite AddAll_cons.
      destruct (AddAll_coll_closed (created (outcomes rest fs))
                  (Add ctx (withFState fs w)) (Add ctx w)) as (Hc' & Hcl').
      { pose proof (Add_contexts ctx (withFState fs w)) as H1.
        pose proof (Add_contexts ctx w) as H2.
        pose proof (Add_ConfigTypes ctx (withFState fs w)) as T1.
        pose proof (Add_ConfigTypes ctx w) as T2.
        destruct (coll (Add ctx (withFState fs w))) as [m1 t1],
                 (coll (Add ctx w)) as [m2 t2].
        cbn in *. by rewrite H1, H2, T1, T2. }
      { by rewrite !Add_closed. }
      by rewrite Hc, Hcl, Hc', Hcl'.
    + destruct (IH (logErrorf ("failed to create context from '" +:+ identityFile +:+ "'")
                              (withFState fs w))) as (Hc & Hcl); [done|].
      cbn [fstate logErrorf withFState] in Hc, Hcl.
      cbn [created omap list_omap snd]. fold (created (outcomes rest fs)).
      destruct (AddAll_coll_closed (created (outcomes rest fs))
                  (logErrorf ("failed to create context from '" +:+ identityFile +:+ "'")
                     (withFState fs w)) w) as (Hc' & Hcl'); [done|done|].
      by rewrite Hc, Hcl, Hc', Hcl'.
  - destruct (IH (logErrorf ("failed to load config from file '" +:+ identityFile +:+ "'") w))
      as (Hc & Hcl); [done|].
    cbn [fstate logErrorf] in Hc, Hcl.
    cbn [created omap list_omap snd]. fold (created (outcomes rest (fstate w))).
    destruct (AddAll_coll_closed (created (outcomes rest (fstate w)))
                (logErrorf ("failed to load config from file '" +:+ identityFile +:+ "'") w)
                w) as (Hc' & Hcl'); [done|done|].
    by rewrite Hc, Hcl, Hc', Hcl'.
Qed.

(** X19. The collection [NewSdkCollectionFromEnv] returns keeps every context
    under the identity it reports.  The calls of [Close()] it makes are on
    contexts it has created itself, put out by a later one of the same
    identity; when the contexts it creates have different identities it makes
    none. *)
Theorem NewSdkCollectionFromEnv_closes_only_its_own (envVariable : string) (w : World) :
  let w' := NewSdkCollectionFromEnv envVariable w in
  let os := outcomes (Split (Getenv envVariable) ";") (fstate w) in
  keyed (contexts (coll w'))
  ∧ ∃ extra, closed w' = closed w ++ extra
             ∧ (∀ x, x ∈ extra → x ∈ created os)
             ∧ (NoDup (GetId <$> created os) → extra = []).
Proof.
  intros w' os.
  set (w0 := {| coll := NewSdkCollection; closed := closed w; logged := logged w;
                fstate := fstate w |}).
  destruct (rangeIdentityFiles_AddAll (Split (Getenv envVariable) ";") w0 eq_refl)
    as (Hc & Hcl).
  change (coll w' = coll (AddAll (created os) w0)) in Hc.
  change (closed w' = closed (AddAll (created os) w0)) in Hcl.
  split.
  - rewrite Hc. apply AddAll_keyed. apply keyed_empty.
  - destruct (AddAll_closed_members (created os) w0) as (extra & Hextra & Hin).
    exists extra. rewrite Hcl. split; [done|]. split.
    + intros x Hx. destruct (Hin x Hx) as [Hhs|[id Hid]]; [done|].
      unfold lookup_ctx, cmap.Get in Hid. cbn in Hid. by rewrite lookup_empty in Hid.
    + intros Hnd. destruct (AddAll_distinct_closes_nothing (created os) w0 Hnd) as (Hsame & _).
      { intros h _. unfold lookup_ctx, cmap.Get. cbn. apply lookup_empty. }
      rewrite Hsame in Hextra. cbn in Hextra.
      apply (f_equal length) in Hextra. rewrite length_app in Hextra.
      destruct extra; [done|cbn in Hextra; lia].
Qed.

Lemma Add_withLog h l w : Add h (withLog l w) = withLog l (Add h w).
Proof.
  unfold Add, withLog. cbn [coll closed].
  by destruct (cmap.Upsert (GetId h) (Some h) closeSuperseded (contexts (coll w)) (closed w)).
Qed.

Lemma SdkCollection_NewContextWithOpts_withLog cfg options l w :
  SdkCollection_NewContextWithOpts cfg options (withLog l w)
  = let '(w', cfg', r) := SdkCollection_NewContextWithOpts cfg options w in
    (withLog l w', cfg', r).
Proof.
  unfold SdkCollection_NewContextWithOpts. cbn [withLog coll fstate].
  destruct (NewContextWithOpts _ _ _) as [[fs cfg'] [ctx|err]]; [|done].
  by rewrite <- Add_withLog.
Qed.

Lemma addFromFiles_cons file files w :
  addFromFiles (file :: files) w
  = addFromFiles files (fst (SdkCollection_NewContextFromFile file w)).
Proof. done. Qed.

Lemma rangeIdentityFiles_addFromFiles identityFiles l w :
  ∃ l', rangeIdentityFiles identityFiles (withLog l w)
        = withLog l' (addFromFiles (filter (λ f, f ≠ "") identityFiles) w).
Proof.
  revert l w. induction identityFiles as [|identityFile rest IH]; intros l w.
  { by exists l. }
  cbn [rangeIdentityFiles]. destruct (String.eqb identityFile "") eqn:Eempty.
  { apply String.eqb_eq in Eempty. rewrite filter_cons_False by (by intros H). apply IH. }
  apply String.eqb_neq in Eempty. rewrite filter_cons_True by done.
  rewrite addFromFiles_cons.
  unfold SdkCollection_NewContextFromFile, SdkCollection_NewContextFromFileWithOpts,
    SdkCollection_NewContext.
  destruct (NewConfigFromFile identityFile) as [cfg|err].
  - rewrite SdkCollection_NewContextWithOpts_withLog.
    destruct (SdkCollection_NewContextWithOpts cfg None w) as [[w1 cfg1] [ctx|err]];
      cbn [fst].
    + apply (IH l w1).
    + apply (IH (l ++ ["failed to create context from '" +:+ identityFile +:+ "'"]) w1).
  - cbn [fst].
    apply (IH (l ++ ["failed to load config from file '" +:+ identityFile +:+ "'"]) w).
Qed.

Lemma addFromFiles_logged files w : logged (addFromFiles files w) = logged w.
Proof.
  revert w. induction files as [|file files IH]; intros w; [done|].
  rewrite addFromFiles_cons, IH.
  unfold SdkCollection_NewContextFromFile, SdkCollection_NewContextFromFileWithOpts.
  destruct (NewConfigFromFile file) as [cfg|err]; [|done].
  pose proof (SdkCollection_NewContextWithOpts_cases cfg None w) as H.
  destruct (SdkCollection_NewContextWithOpts cfg None w) as [[w1 cfg1] r].
  by destruct H as (Hlog & _).
Qed.

(** X18. [NewSdkCollectionFromEnv] leaves the collection, the calls of [Close()]
    and the factory as calling [NewContextFromFile] on a new collection does,
    for each segment of the value that is not empty, in order and whatever
    the calls return; the calls of [NewContextFromFile] write no log. *)
Theorem NewSdkCollectionFromEnv_is_NewContextFromFile_in_turn
    (envVariable : string) (w : World) :
  let w1 := NewSdkCollectionFromEnv envVariable w in
  let w2 := addFromFiles (filter (λ f, f ≠ "") (Split (Getenv envVariable) ";"))
              {| coll := NewSdkCollection; closed := closed w; logged := logged w;
                 fstate := fstate w |} in
  coll w1 = coll w2 ∧ closed w1 = closed w2 ∧ fstate w1 = fstate w2
  ∧ logged w2 = logged w.
Proof.
  intros w1 w2.
  destruct (rangeIdentityFiles_addFromFiles (Split (Getenv envVariable) ";") (logged w)
              {| coll := NewSdkCollection; closed := closed w; logged := logged w;
                 fstate := fstate w |}) as [l' Hrun].
  change (w1 = withLog l' w2) in Hrun. rewrite Hrun.
  split; [done|]. split; [done|]. split; [done|].
  subst w2. by rewrite addFromFiles_logged.
Qed.

Lemma outcomes_count sources fs :
  length (created (outcomes sources fs)) + length (failureLines (outcomes sources fs))
  = length (filter (λ f, f ≠ "") sources).
Proof.
  revert fs. induction sources as [|src rest IH]; intros fs; [done|].
  cbn [outcomes]. destruct (String.eqb src "") eqn:Eempty.
  { apply String.eqb_eq in Eempty. rewrite filter_cons_False by (by intros H).
    cbn. apply IH. }
  apply String.eqb_neq in Eempty. rewrite filter_cons_True by done.
  destruct (NewConfigFromFile src) as [cfg|err].
  - destruct (NewContextWithOpts fs cfg None) as [[fs' cfg'] [ctx|err]]; cbn;
      rewrite <- (IH fs'); unfold created, failureLines; lia.
  - cbn. rewrite <- (IH fs). unfold created, failureLines. lia.
Qed.

Lemma registryOf_size hs : (size (registryOf hs) ≤ length hs)%nat.
Proof.
  induction hs as [|h hs IH] using rev_ind; [done|].
  rewrite registryOf_snoc, length_app, map_size_insert. cbn.
  destruct (registryOf hs !! GetId h); cbn; lia.
Qed.

(** X20. Every segment of the value that is not empty accounts for one thing: a
    line in the log or a context created.  The collection has at most as
    many entries as contexts were created. *)
Theorem NewSdkCollectionFromEnv_one_line_or_one_context
    (envVariable : string) (w : World) :
  let w' := NewSdkCollectionFromEnv envVariable w in
  let os := outcomes (Split (Getenv envVariable) ";") (fstate w) in
  length (logged w') + length (created os)
  = length (logged w) + length (filter (λ f, f ≠ "") (Split (Getenv envVariable) ";"))
  ∧ (size (contexts (coll w')) ≤ length (created os))%nat.
Proof.
  intros w' os.
  destruct (rangeIdentityFiles_outcomes (Split (Getenv envVariable) ";")
              {| coll := NewSdkCollection; closed := closed w; logged := logged w;
                 fstate := fstate w |}) as (Hm & Hl & _); [done|].
  cbn in Hm, Hl. fold os in Hm, Hl.
  change (contexts (coll w') = registryOf (created os)) in Hm.
  change (logged w' = logged w ++ failureLines os) in Hl.
  rewrite Hl, Hm, length_app. split; [|apply registryOf_size].
  pose proof (outcomes_count (Split (Getenv envVariable) ";") (fstate w)) as Hcount.
  fold os in Hcount. lia.
Qed.

Lemma rangeIdentityFiles_all_empty identityFiles w :
  Forall (λ f, f = "") identityFiles → rangeIdentityFiles identityFiles w = w.
Proof.
  induction 1 as [|f rest -> _ IH]; [done|]. done.
Qed.

(** X21. When the value of the variable has no segment that is not empty (the
    variable is unset or empty, or holds separators only), the collection is
    new and empty, nothing is read, created, closed or logged. *)
Theorem NewSdkCollectionFromEnv_without_files (envVariable : string) (w : World) :
  Forall (λ f, f = "") (Split (Getenv envVariable) ";") →
  NewSdkCollectionFromEnv envVariable w
  = {| coll := NewSdkCollection; closed := closed w; logged := logged w;
       fstate := fstate w |}.
Proof. intros Hempty. unfold NewSdkCollectionFromEnv. by apply rangeIdentityFiles_all_empty. Qed.

(** *** The list of files *)

Lemma Join_cons_cons seg seg' segs sep :
  Join (seg :: seg' :: segs) sep = seg +:+ String sep (Join (seg' :: segs) sep).
Proof. done. Qed.

(** X22. The segments [strings.Split] cuts a value into: put together with the
    separator between them they give the value back, there is one more of
    them than the value has separators, and none holds a separator. *)
Theorem Split_segments (s : string) (sep : ascii) :
  Join (Split s sep) sep = s
  ∧ length (Split s sep) = S (countSep s sep)
  ∧ Forall (λ seg, countSep seg sep = 0) (Split s sep).
Proof.
  induction s as [|c rest (IHjoin & IHlen & IHfree)].
  { split; [done|]. split; [done|]. by repeat constructor. }
  cbn [Split countSep]. destruct (Ascii.eqb c sep) eqn:Ec.
  - apply Ascii.eqb_eq in Ec as ->. split; [|split].
    + destruct (Split rest sep) as [|seg segs] eqn:E; [by apply Split_not_nil in E|].
      rewrite Join_cons_cons, IHjoin. done.
    + cbn. by rewrite IHlen.
    + constructor; [done|exact IHfree].
  - destruct (Split rest sep) as [|seg segs] eqn:E; [by apply Split_not_nil in E|].
    split; [|split].
    + rewrite <- IHjoin. by destruct segs.
    + done.
    + apply Forall_cons in IHfree as (Hseg & Hsegs).
      constructor; [|done]. cbn. by rewrite Ec.
Qed.

(** *** config.go: what loads and what does not *)

Lemma foldl_decodeMember_unknown members st :
  Forall (λ kv, findField (fst kv) = None) members →
  foldl decodeMember st members = st.
Proof.
  intros Hall. revert st. induction Hall as [|kv members Hkv _ IH]; intros st; [done|].
  cbn. rewrite <- (IH st) at 2. f_equal.
  destruct st as [c err]. unfold decodeMember. by rewrite Hkv.
Qed.

(** X23. [NewConfigFromFile] asks for no member: a file that holds the JSON null,
    or an object none of whose members names a field of [Config] (the empty
    object for one), loads, and what comes back is the zero [Config]. *)
Theorem NewConfigFromFile_asks_for_no_member
    (confFile : string) (conf : list byte) (d : JSON) :
  ReadFile confFile = Ok conf →
  parseJSON conf = Ok d →
  d = JNull
  ∨ (∃ members, d = JObject members ∧ Forall (λ kv, findField (fst kv) = None) members) →
  NewConfigFromFile confFile = Ok zeroConfig.
Proof.
  intros Hread Hparse Hd. unfold NewConfigFromFile, Unmarshal.
  rewrite Hread, Hparse. destruct Hd as [->|(members & -> & Hall)]; [done|].
  cbn. by rewrite foldl_decodeMember_unknown.
Qed.

(** X24. A file whose JSON text is neither an object nor null (an array, a
    string, a number, true or false) does not load: [NewConfigFromFile]
    answers with the "failed to load ziti configuration" error that carries
    the type error of [Unmarshal]. *)
Theorem NewConfigFromFile_refuses_other_documents
    (confFile : string) (conf : list byte) (d : JSON) :
  ReadFile confFile = Ok conf →
  parseJSON conf = Ok d →
  match d with JNull | JObject _ => False | _ => True end →
  NewConfigFromFile confFile
  = Err ("failed to load ziti configuration (" +:+ confFile +:+ "): "
         +:+ UnmarshalTypeError d "Config").
Proof.
  intros Hread Hparse Hd. unfold NewConfigFromFile, Unmarshal.
  rewrite Hread, Hparse. by destruct d.
Qed.

Lemma saveError_Some e new : saveError (Some e) new = Some e.
Proof. done. Qed.

Lemma foldl_decodeMember_keeps_error members c e :
  snd (foldl decodeMember (c, Some e) members) = Some e.
Proof.
  revert c. induction members as [|kv members IH]; intros c; [done|].
  cbn [foldl]. unfold decodeMember at 2.
  destruct (findField (fst kv)) as [[| |]|]; [| | |apply IH].
  - destruct (decodeString _ _ _). apply IH.
  - destruct (decodeSlice _ _ _). apply IH.
  - destruct (decodeID _ _). apply IH.
Qed.

Lemma decodeString_wrong goField v cur :
  wrongString v → snd (decodeString goField v cur) = Some (UnmarshalTypeError v goField).
Proof. by destruct v. Qed.

Lemma decodeElems_wrong goField items cur :
  Exists wrongString items → snd (decodeElems goField items cur) ≠ None.
Proof.
  intros Hex. revert cur. induction Hex as [v items Hv|v items _ IH]; intros cur; cbn.
  - pose proof (decodeString_wrong goField v (hd "" cur) Hv) as H.
    destruct (decodeString goField v (hd "" cur)) as [s0 e0]. cbn in H. subst e0.
    by destruct (decodeElems goField items (tl cur)).
  - destruct (decodeString goField v (hd "" cur)) as [s0 e0].
    specialize (IH (tl cur)).
    destruct (decodeElems goField items (tl cur)) as [l e]. cbn in *.
    by destruct e0, e.
Qed.

Lemma decodeSlice_wrong goField v cur :
  wrongSlice v → snd (decodeSlice goField v cur) ≠ None.
Proof.
  destruct v; cbn; try done. intros Hex.
  pose proof (decodeElems_wrong goField items (elems cur) Hex) as H.
  by destruct (decodeElems goField items (elems cur)).
Qed.

Lemma foldl_decodeMember_wrong members c err :
  Exists wrongType members → snd (foldl decodeMember (c, err) members) ≠ None.
Proof.
  destruct err as [e|]; [intros _; by rewrite foldl_decodeMember_keeps_error|].
  intros Hex. revert c.
  induction Hex as [kv members Hkv|kv members _ IH]; intros c; cbn [foldl].
  - assert (∃ c' e, decodeMember (c, None) kv = (c', Some e)) as (c' & e & ->).
    { destruct kv as [k v]. unfold decodeMember.
      destruct Hkv as [[Hk Hv]|[Hk Hv]]; cbn in Hk, Hv; subst k; cbn.
      - pose proof (decodeString_wrong "Config.ztAPI" v (ZtAPI c) Hv) as H.
        destruct (decodeString "Config.ztAPI" v (ZtAPI c)) as [s0 e0]. cbn in H. subst e0.
        by eexists _, _.
      - pose proof (decodeSlice_wrong "Config.configTypes" v (ConfigTypes c) Hv) as H.
        destruct (decodeSlice "Config.configTypes" v (ConfigTypes c)) as [l [e0|]];
          [by eexists _, _|done]. }
    by rewrite foldl_decodeMember_keeps_error.
  - destruct (decodeMember (c, None) kv) as [c' [e|]].
    + by rewrite foldl_decodeMember_keeps_error.
    + apply IH.
Qed.

(** X25. A type error in the ztAPI or the configTypes member is not passed over:
    when the ztAPI member of the object is not a string (or null), or the
    configTypes member is not an array of strings (or null), the file does
    not load, whatever its other members are, and [NewConfigFromFile] answers
    with the "failed to load ziti configuration" error. *)
Theorem NewConfigFromFile_refuses_wrong_types
    (confFile : string) (conf : list byte) (members : list (string * JSON)) :
  ReadFile confFile = Ok conf →
  parseJSON conf = Ok (JObject members) →
  Exists wrongType members →
  ∃ e, NewConfigFromFile confFile
       = Err ("failed to load ziti configuration (" +:+ confFile +:+ "): " +:+ e).
Proof.
  intros Hread Hparse Hex. unfold NewConfigFromFile, Unmarshal.
  rewrite Hread, Hparse. cbn [decodeConfig].
  pose proof (foldl_decodeMember_wrong members zeroConfig None Hex) as H.
  destruct (foldl decodeMember (zeroConfig, None) members) as [c [e|]]; [|done].
  by exists e.
Qed.

End Ziti.

Arguments coll {FState} _.
Arguments closed {FState} _.
Arguments logged {FState} _.
Arguments fstate {FState} _.
Arguments Add {FState} _ _.
Arguments Remove {FState} _ _.
Arguments RemoveById {FState} _ _.
Arguments lookup_ctx {FState} _ _.
Arguments run {FState} _ _.
Arguments ZtAPI {IdentityConfig CredentialsImpl} _.
Arguments ConfigTypes {IdentityConfig CredentialsImpl} _.
Arguments ID {IdentityConfig CredentialsImpl} _.
Arguments Credentials {IdentityConfig CredentialsImpl} _.

(** ** The operations on the small environment *)

Local Abbreviation emptyWorld :=
  ({| coll := NewSdkCollection; closed := []; logged := []; fstate := 0 |}
   : World demo.FState).

Local Abbreviation demoConfig := (mkConfig demo.IdentityConfig demo.CredentialsImpl).

Local Abbreviation demoNewConfigFromFile :=
  (NewConfigFromFile demo.IdentityConfig demo.CredentialsImpl demo.idZero
     demo.ReadFile demo.parseJSON demo.EqualFold demo.UnmarshalTypeError demo.decodeID).

Local Abbreviation demoDecodeConfig :=
  (decodeConfig demo.IdentityConfig demo.CredentialsImpl
     demo.EqualFold demo.UnmarshalTypeError demo.decodeID).

Local Abbreviation demoSerialize :=
  (serialize demo.IdentityConfig demo.CredentialsImpl demo.encodeID).

Local Abbreviation demoFactory :=
  (demo.NewContextWithOpts (C := Config demo.IdentityConfig demo.CredentialsImpl) ZtAPI).

Local Abbreviation demoCollectionNewContextWithOpts :=
  (SdkCollection_NewContextWithOpts demo.IdentityConfig demo.CredentialsImpl
     demo.Options demo.FState demoFactory).

Local Abbreviation demoNewSdkCollectionFromEnv :=
  (NewSdkCollectionFromEnv demo.IdentityConfig demo.CredentialsImpl demo.Options
     demo.FState demo.idZero demo.ReadFile demo.Getenv demo.parseJSON demo.EqualFold
     demo.UnmarshalTypeError demo.decodeID demoFactory).

Local Abbreviation goodConfig :=
  (demoConfig "https://ctrl.example:1280/edge/client/v1" (Some ["intercept.v1"])
     {| demo.Key := "KEY"; demo.Cert := "CERT" |} None).

(** [h1] and then [h2], of one identity, added to a new collection. *)
Lemma Add_distinct_closes_first_on_new_collection :
  closeCalls demo.h1 (closed (Add demo.h2 (Add demo.h1 emptyWorld))) = 1
  ∧ closeCalls demo.h2 (closed (Add demo.h2 (Add demo.h1 emptyWorld))) = 0
  ∧ lookup_ctx "identity-a" (Add demo.h2 (Add demo.h1 emptyWorld)) = Some (Some demo.h2)
  ∧ closed (Add demo.h2 (Add demo.h1 emptyWorld)) = [demo.h1].
Proof.
  destruct (Add_distinct_closes_first demo.FState emptyWorld demo.h1 demo.h2)
    as (Hfirst & Hsecond & Hlookup & Hlog).
  - discriminate.
  - reflexivity.
  - assert (lookup_ctx (GetId demo.h1) emptyWorld ≠ Some (Some demo.h2)) as Hfree.
    { vm_compute. discriminate. }
    exact (conj Hfirst (conj (Hsecond Hfree) (conj Hlookup (Hlog eq_refl)))).
Defined.

(** [Remove] with [h2] takes out [h1], stored under the same identity. *)
Lemma Remove_keyed_by_identity_other_instance :
  demo.h1 ≠ demo.h2
  ∧ lookup_ctx "identity-a" (Add demo.h1 emptyWorld) = Some (Some demo.h1)
  ∧ lookup_ctx "identity-a" (Remove demo.h2 (Add demo.h1 emptyWorld)) = None
  ∧ closed (Remove demo.h2 (Add demo.h1 emptyWorld)) = [].
Proof.
  split; [discriminate|].
  assert (lookup_ctx (GetId demo.h2) (Add demo.h1 emptyWorld) = Some (Some demo.h1)) as Hstored.
  { vm_compute. reflexivity. }
  destruct (Remove_keyed_by_identity demo.FState (Add demo.h1 emptyWorld) demo.h2 demo.h1 Hstored)
    as (Hgone & Hclosed & _ & _).
  exact (conj Hstored (conj Hgone Hclosed)).
Defined.

(** The file good.json loads; the configuration has no [Credentials]. *)
Lemma NewConfigFromFile_leaves_Credentials_nil_good_json :
  demoNewConfigFromFile "good.json" = Ok goodConfig
  ∧ Credentials goodConfig = None.
Proof.
  assert (demoNewConfigFromFile "good.json" = Ok goodConfig) as Hload.
  { vm_compute. reflexivity. }
  split; [exact Hload|].
  exact (proj1 (NewConfigFromFile_leaves_Credentials_nil _ _ _ _ _ _ _ _ _ _ Hload)).
Defined.

(** C2 fails on the code: good.json carries an [id] with a certificate and a
    key and no credentials, it loads, and the [Config] that comes back has the
    [ID] and a nil [Credentials]. *)
Lemma NewConfigFromFile_does_not_populate_Credentials :
  ∃ cfg, demoNewConfigFromFile "good.json" = Ok cfg
         ∧ ID cfg = {| demo.Key := "KEY"; demo.Cert := "CERT" |}
         ∧ ID cfg ≠ demo.idZero
         ∧ Credentials cfg = None.
Proof.
  exists goodConfig. split; [vm_compute; reflexivity|].
  split; [reflexivity|]. split; [discriminate|reflexivity].
Qed.

(** The serialised form of the configuration of good.json reads back. *)
Lemma serialize_roundtrip_good_config :
  ∃ c', demoDecodeConfig (demoSerialize goodConfig)
          (zeroConfig demo.IdentityConfig demo.CredentialsImpl demo.idZero) = (c', None)
        ∧ ZtAPI c' = "https://ctrl.example:1280/edge/client/v1"
        ∧ ConfigTypes c' = Some ["intercept.v1"]
        ∧ memberNames (demoSerialize goodConfig) = ["ztAPI"; "configTypes"; "id"].
Proof.
  destruct (serialize_roundtrip demo.IdentityConfig demo.CredentialsImpl demo.idZero
              demo.parseJSON demo.EqualFold demo.UnmarshalTypeError demo.decodeID
              demo.encodeID goodConfig eq_refl)
    as [(c' & Hdec & Hapi & Htypes & _) [Hnames _]].
  exists c'. exact (conj Hdec (conj Hapi (conj Htypes Hnames))).
Defined.

(** C3 fails on the code: a collection with one config type, a [Config] with
    none; after the call [cfg.ConfigTypes] holds the collection's config type,
    and after a second call with the same [cfg] it holds it twice. *)
Lemma SdkCollection_NewContextWithOpts_changes_cfg :
  let cfg := demoConfig "https://ctrl.example:1280/edge/client/v1" None demo.idZero None in
  let w := {| coll := {| contexts := ∅; SdkCollection_ConfigTypes := Some ["intercept.v1"] |};
              closed := []; logged := []; fstate := 0 |} in
  let '(w1, cfg1, _) := demoCollectionNewContextWithOpts cfg None w in
  let '(_, cfg2, _) := demoCollectionNewContextWithOpts cfg1 None w1 in
  ConfigTypes cfg = None
  ∧ ConfigTypes cfg1 = Some ["intercept.v1"]
  ∧ ConfigTypes cfg1 ≠ ConfigTypes cfg
  ∧ ConfigTypes cfg2 = Some ["intercept.v1"; "intercept.v1"].
Proof.
  vm_compute. split; [reflexivity|]. split; [reflexivity|]. split; [discriminate|reflexivity].
Qed.

(** The race on the three contexts of the small environment. *)
Lemma Add_race_on_new_collection :
  let '(gs, w') := run [0; 1; 0; 2; 1; 2] (go_Add [demo.h1; demo.h2; demo.h3], emptyWorld) in
  closed w' = [demo.h1; demo.h1]
  ∧ closeCalls demo.h2 (closed w') = 0
  ∧ lookup_ctx "identity-a" w' = Some (Some demo.h3).
Proof.
  pose proof (Add_race_closes_one_context_twice demo.FState emptyWorld demo.h1 demo.h2 demo.h3
                eq_refl eq_refl) as H.
  destruct (run [0; 1; 0; 2; 1; 2] (go_Add [demo.h1; demo.h2; demo.h3], emptyWorld))
    as [gs w'].
  destruct H as (_ & Hlog & _ & Hh2 & Hlookup); try discriminate; [reflexivity|].
  exact (conj Hlog (conj Hh2 Hlookup)).
Defined.

(** The list of the small environment: good.json and good2.json give the two
    contexts of the collection, the missing file and bad.json one line each in
    the log, and the empty segment nothing. *)
Lemma NewSdkCollectionFromEnv_on_ZITI_IDENTITIES :
  let w' := demoNewSdkCollectionFromEnv "ZITI_IDENTITIES" emptyWorld in
  contexts (coll w')
  = registryOf [ {| ptr := 0; GetId := "https://ctrl.example:1280/edge/client/v1" |};
                 {| ptr := 1; GetId := "https://other.example/edge/client/v1" |} ]
  ∧ logged w' = [ "failed to load config from file 'missing.json'";
                  "failed to load config from file 'bad.json'" ].
Proof.
  destruct (NewSdkCollectionFromEnv_collects_successes demo.IdentityConfig
              demo.CredentialsImpl demo.Options demo.FState demo.idZero demo.ReadFile
              demo.Getenv demo.parseJSON demo.EqualFold demo.UnmarshalTypeError
              demo.decodeID demoFactory "ZITI_IDENTITIES" emptyWorld)
    as (Hm & Hl & _).
  exact (conj Hm Hl).
Defined.

(** The three goroutines under the schedule of the race: two calls in all. *)
Lemma Add_race_total_on_new_collection :
  let '(gs, w') := run [0; 1; 0; 2; 1; 2] (go_Add [demo.h1; demo.h2; demo.h3], emptyWorld) in
  length (closed w') = 2 ∧ ∃ h, h ∈ [demo.h1; demo.h2; demo.h3]
                                ∧ lookup_ctx "identity-a" w' = Some (Some h).
Proof.
  pose proof (Add_race_makes_N_minus_1_Close_calls demo.FState
                [demo.h1; demo.h2; demo.h3] "identity-a" [0; 1; 0; 2; 1; 2] emptyWorld) as H.
  destruct (run [0; 1; 0; 2; 1; 2] (go_Add [demo.h1; demo.h2; demo.h3], emptyWorld))
    as [gs w'] eqn:E.
  destruct H as [(extra & Hcl & Hlen & _) Hmap].
  - repeat constructor; rewrite ?list_elem_of_In; cbn; intuition discriminate.
  - intros h Hh. rewrite list_elem_of_In in Hh. cbn in Hh.
    by destruct Hh as [<-|[<-|[<-|[]]]].
  - reflexivity.
  - vm_compute in E. injection E as <- <-. by repeat constructor.
  - split; [by rewrite Hcl, length_app, Hlen|]. by apply Hmap.
Defined.

Arguments AddAll {FState} _ _.

(** ** The other operations on the small environment *)

Local Abbreviation oneContext := (<["identity-a" := Some demo.h1]> (∅ : gmap string Context)).

Local Abbreviation edgeNewConfigFromFile :=
  (NewConfigFromFile demo.IdentityConfig demo.CredentialsImpl demo.idZero
     edge.ReadFile edge.parseJSON demo.EqualFold demo.UnmarshalTypeError demo.decodeID).

Local Abbreviation edgeNewSdkCollectionFromEnv :=
  (NewSdkCollectionFromEnv demo.IdentityConfig demo.CredentialsImpl demo.Options
     demo.FState demo.idZero edge.ReadFile edge.Getenv edge.parseJSON demo.EqualFold
     demo.UnmarshalTypeError demo.decodeID demoFactory).

Lemma keyed_emptyWorld : keyed (contexts (coll emptyWorld)).
Proof. intros id c H. cbn in H. by rewrite lookup_empty in H. Defined.

Lemma keyed_after_Add_h1 : keyed (contexts (coll (Add demo.h1 emptyWorld))).
Proof. rewrite Add_contexts. apply keyed_insert, keyed_emptyWorld. Defined.

(** The three operations on the new collection. *)
Lemma collection_stays_keyed_on_new_collection :
  keyed (contexts (coll (Add demo.h1 emptyWorld)))
  ∧ keyed (contexts (coll (Remove demo.h1 emptyWorld)))
  ∧ keyed (contexts (coll (RemoveById "identity-a" emptyWorld))).
Proof.
  exact (collection_stays_keyed demo.FState emptyWorld demo.h1 "identity-a" keyed_emptyWorld).
Defined.

(** [h2] added to the collection that holds [h1]. *)
Lemma Add_closes_only_the_superseded_h1 :
  ∃ extra, closed (Add demo.h2 (Add demo.h1 emptyWorld))
           = closed (Add demo.h1 emptyWorld) ++ extra
           ∧ (length extra ≤ 1)%nat
           ∧ ∀ x, x ∈ extra →
                  lookup_ctx (GetId demo.h2) (Add demo.h1 emptyWorld) = Some (Some x)
                  ∧ GetId x = GetId demo.h2 ∧ x ≠ demo.h2.
Proof.
  exact (Add_closes_only_the_superseded demo.FState (Add demo.h1 emptyWorld) demo.h2
           keyed_after_Add_h1).
Defined.

(** [h1] added to the new collection and removed again. *)
Lemma Remove_undoes_Add_on_new_collection :
  Remove demo.h1 (Add demo.h1 emptyWorld) = emptyWorld.
Proof.
  apply (Remove_undoes_Add demo.FState emptyWorld demo.h1). vm_compute. reflexivity.
Defined.

Lemma NoDup_h1_h2_h3 : NoDup [demo.h1; demo.h2; demo.h3].
Proof.
  repeat constructor; rewrite ?list_elem_of_In; cbn; intuition discriminate.
Defined.

Lemma identity_a_h1_h2_h3 (x : ContextImpl) :
  x ∈ [demo.h1; demo.h2; demo.h3] → GetId x = "identity-a".
Proof.
  intros Hx. rewrite list_elem_of_In in Hx. cbn in Hx.
  by destruct Hx as [<-|[<-|[<-|[]]]].
Defined.

(** [h1], [h2], [h3] added in this order to the new collection. *)
Lemma AddAll_closes_all_but_last_h1_h2_h3 :
  closed (AddAll ([demo.h1; demo.h2] ++ [demo.h3]) emptyWorld) = [demo.h1; demo.h2]
  ∧ lookup_ctx "identity-a" (AddAll ([demo.h1; demo.h2] ++ [demo.h3]) emptyWorld)
    = Some (Some demo.h3).
Proof.
  apply (AddAll_closes_all_but_last demo.FState [demo.h1; demo.h2] demo.h3
           "identity-a" emptyWorld).
  - exact NoDup_h1_h2_h3.
  - exact identity_a_h1_h2_h3.
  - vm_compute. reflexivity.
Defined.

(** The schedule of the race keeps the map keyed. *)
Lemma run_keeps_keyed_under_the_race :
  let '(gs', w') := run [0; 1; 0; 2; 1; 2] (go_Add [demo.h1; demo.h2; demo.h3], emptyWorld) in
  keyed (contexts (coll w'))
  ∧ (∀ id, (∀ g, g ∈ go_Add [demo.h1; demo.h2; demo.h3] → GetId (ctxArg g) ≠ id) →
           lookup_ctx id w' = lookup_ctx id emptyWorld)
  ∧ logged w' = logged emptyWorld
  ∧ ctxArg <$> gs' = ctxArg <$> go_Add [demo.h1; demo.h2; demo.h3].
Proof.
  exact (run_keeps_keyed demo.FState [0; 1; 0; 2; 1; 2]
           (go_Add [demo.h1; demo.h2; demo.h3]) emptyWorld keyed_emptyWorld).
Defined.

(** Two goroutines, [h1] and [h2], on the new collection. *)
Lemma Add_race_keeps_closed_context_on_new_collection :
  let '(gs, w') := run [0; 1; 1; 0] (go_Add [demo.h1; demo.h2], emptyWorld) in
  all_returned gs
  ∧ closed w' = [demo.h1]
  ∧ lookup_ctx "identity-a" w' = Some (Some demo.h1).
Proof.
  apply (Add_race_keeps_closed_context demo.FState emptyWorld demo.h1 demo.h2).
  - reflexivity.
  - discriminate.
  - vm_compute. reflexivity.
Defined.

Lemma Iteration_oneContext : cmap.Iteration oneContext [("identity-a", Some demo.h1)].
Proof.
  unfold cmap.Iteration. rewrite insert_empty, map_to_list_singleton. reflexivity.
Defined.

Lemma keyed_oneContext : keyed oneContext.
Proof. apply (keyed_insert ∅ demo.h1), keyed_empty. Defined.

(** A visitor that answers false on the map that holds [h1]. *)
Lemma ForAll_visits_each_once_h1 :
  let visited := ForAll (noting (λ _, false)) [("identity-a", Some demo.h1)] [] in
  visited ≡ₚ snd <$> map_to_list oneContext
  ∧ length visited = size oneContext
  ∧ (∀ c, c ∈ visited ↔ ∃ id, oneContext !! id = Some c)
  ∧ (keyed oneContext → NoDup visited).
Proof.
  exact (ForAll_visits_each_once oneContext [("identity-a", Some demo.h1)] (λ _, false)
           Iteration_oneContext).
Defined.

Lemma Iteration_twoContexts_a_b :
  cmap.Iteration (<["identity-b" := Some (mkContext 4 "identity-b")]> oneContext)
    [("identity-a", Some demo.h1); ("identity-b", Some (mkContext 4 "identity-b"))].
Proof.
  unfold cmap.Iteration. rewrite map_to_list_insert by (vm_compute; reflexivity).
  rewrite insert_empty, map_to_list_singleton. apply Permutation_swap.
Defined.

Lemma Iteration_twoContexts_b_a :
  cmap.Iteration (<["identity-b" := Some (mkContext 4 "identity-b")]> oneContext)
    [("identity-b", Some (mkContext 4 "identity-b")); ("identity-a", Some demo.h1)].
Proof.
  unfold cmap.Iteration. rewrite map_to_list_insert by (vm_compute; reflexivity).
  rewrite insert_empty, map_to_list_singleton. reflexivity.
Defined.

(** A visitor that counts the contexts, on two passes over a map of two. *)
Lemma ForAll_order_irrelevant_counting :
  ForAll (λ (_ : Context) (n : nat), (true, S n))
    [("identity-a", Some demo.h1); ("identity-b", Some (mkContext 4 "identity-b"))] 0
  = ForAll (λ (_ : Context) (n : nat), (true, S n))
      [("identity-b", Some (mkContext 4 "identity-b")); ("identity-a", Some demo.h1)] 0.
Proof.
  apply (ForAll_order_irrelevant (λ (_ : Context) (n : nat), (true, S n))
           (<["identity-b" := Some (mkContext 4 "identity-b")]> oneContext)).
  - reflexivity.
  - exact Iteration_twoContexts_a_b.
  - exact Iteration_twoContexts_b_a.
Defined.

Lemma Iteration_after_Add_h1 :
  cmap.Iteration (contexts (coll (Add demo.h1 emptyWorld))) [("identity-a", Some demo.h1)].
Proof.
  rewrite Add_contexts. exact Iteration_oneContext.
Defined.

(** A pass after [h1] is added to the new collection: it meets [h1]. *)
Lemma ForAll_after_Add_h1 :
  Some demo.h1 ∈ ForAll (noting (λ _, true)) [("identity-a", Some demo.h1)] [].
Proof.
  exact (proj1 (proj1 (ForAll_after_Add_and_Remove demo.FState emptyWorld demo.h1 (λ _, true)
                         keyed_emptyWorld)
                  [("identity-a", Some demo.h1)] Iteration_after_Add_h1)).
Defined.

(** The [Config] of the small environment passed twice to a collection with
    one config type. *)
Lemma SdkCollection_NewContextWithOpts_accumulates_intercept :
  let cfg := demoConfig "https://ctrl.example:1280/edge/client/v1" (Some ["dns.v1"])
               demo.idZero None in
  let w := {| coll := {| contexts := ∅; SdkCollection_ConfigTypes := Some ["intercept.v1"] |};
              closed := []; logged := []; fstate := 0 |} in
  let '(w1, cfg1, _) := demoCollectionNewContextWithOpts cfg None w in
  let '(_, cfg2, _) := demoCollectionNewContextWithOpts cfg1 None w1 in
  elems (ConfigTypes cfg1) = ["dns.v1"; "intercept.v1"]
  ∧ elems (ConfigTypes cfg2) = ["dns.v1"; "intercept.v1"; "intercept.v1"].
Proof.
  apply (SdkCollection_NewContextWithOpts_accumulates demo.IdentityConfig
           demo.CredentialsImpl demo.Options demo.FState demoFactory).
  intros fs c o. unfold demo.NewContextWithOpts.
  destruct (String.eqb (ZtAPI c) ""); reflexivity.
Defined.

(** [h1] and a context of another identity added to the new collection. *)
Lemma AddAll_distinct_closes_nothing_a_b :
  closed (AddAll [demo.h1; mkContext 4 "identity-b"] emptyWorld) = []
  ∧ ∀ h, h ∈ [demo.h1; mkContext 4 "identity-b"] →
         lookup_ctx (GetId h) (AddAll [demo.h1; mkContext 4 "identity-b"] emptyWorld)
         = Some (Some h).
Proof.
  apply (AddAll_distinct_closes_nothing demo.FState
           [demo.h1; mkContext 4 "identity-b"] emptyWorld).
  - repeat constructor; rewrite ?list_elem_of_In; cbn; intuition discriminate.
  - intros h _. unfold lookup_ctx, cmap.Get. cbn. apply lookup_empty.
Defined.

(** A variable that holds two separators and nothing else. *)
Lemma NewSdkCollectionFromEnv_without_files_separators :
  edgeNewSdkCollectionFromEnv "ONLY_SEPARATORS" emptyWorld = emptyWorld.
Proof.
  apply (NewSdkCollectionFromEnv_without_files demo.IdentityConfig demo.CredentialsImpl
           demo.Options demo.FState demo.idZero edge.ReadFile edge.Getenv edge.parseJSON
           demo.EqualFold demo.UnmarshalTypeError demo.decodeID demoFactory
           "ONLY_SEPARATORS" emptyWorld).
  vm_compute. repeat constructor.
Defined.

(** The file unknown.json holds an object with one member, named controller;
    it loads as the zero [Config]. *)
Lemma NewConfigFromFile_asks_for_no_member_unknown_json :
  edgeNewConfigFromFile "unknown.json"
  = Ok (zeroConfig demo.IdentityConfig demo.CredentialsImpl demo.idZero).
Proof.
  apply (NewConfigFromFile_asks_for_no_member demo.IdentityConfig demo.CredentialsImpl
           demo.idZero edge.ReadFile edge.parseJSON demo.EqualFold demo.UnmarshalTypeError
           demo.decodeID "unknown.json" (list_byte_of_string edge.unknownText) edge.unknownDoc).
  - vm_compute. reflexivity.
  - vm_compute. reflexivity.
  - right. exists [("controller", JBool true)]. split; [reflexivity|].
    repeat constructor.
Defined.

(** The file array.json holds the empty array; it does not load. *)
Lemma NewConfigFromFile_refuses_other_documents_array_json :
  edgeNewConfigFromFile "array.json"
  = Err ("failed to load ziti configuration (array.json): "
         +:+ demo.UnmarshalTypeError (JArray []) "Config").
Proof.
  apply (NewConfigFromFile_refuses_other_documents demo.IdentityConfig demo.CredentialsImpl
           demo.idZero edge.ReadFile edge.parseJSON demo.EqualFold demo.UnmarshalTypeError
           demo.decodeID "array.json" (list_byte_of_string "[]") (JArray [])).
  - vm_compute. reflexivity.
  - vm_compute. reflexivity.
  - exact I.
Defined.

(** The file number.json holds an object whose ztAPI member is the number
    5; it does not load. *)
Lemma NewConfigFromFile_refuses_wrong_types_number_json :
  ∃ e, edgeNewConfigFromFile "number.json"
       = Err ("failed to load ziti configuration (number.json): " +:+ e).
Proof.
  apply (NewConfigFromFile_refuses_wrong_types demo.IdentityConfig demo.CredentialsImpl
           demo.idZero edge.ReadFile edge.parseJSON demo.EqualFold demo.UnmarshalTypeError
           demo.decodeID "number.json" (list_byte_of_string edge.wrongTypeText)
           [("ztAPI", JNumber "5")]).
  - vm_compute. reflexivity.
  - vm_compute. reflexivity.
  - constructor. left. split; [reflexivity|exact I].
Defined.
